(** * radish: the command-line entry point [radish/main.py]

    A shallow embedding of [setup_config] and [main] and the properties of
    the orchestration they perform: configuration construction, feature
    file discovery, sequential parsing with a run-wide scenario counter,
    marker resolution, scenario selection and the hand-over to the runner.

    The collaborators that [main] imports (docopt, the feature parser, the
    loader, the matcher, the runner, [os.path], [time]) are not part of
    [main.py]; they appear as the fields of an environment record, and every
    call to one of them is logged in a trace of events, so that the order of
    the calls and their arguments can be stated. *)

From Stdlib Require Import ZArith String Ascii List Lia.
From Stdlib Require QArith.
From stdpp Require Import base gmap strings list sorting.

Local Open Scope string_scope.
Local Open Scope list_scope.
Local Open Scope Z_scope.

(** ** Python strings *)

Module PyStr.

(** [str.replace(old, new)] for an empty [old]: [new] is inserted before
    every character and at the end. *)
Fixpoint insert_around (new s : string) : string :=
  match s with
  | EmptyString => new
  | String c rest => new +:+ String c (insert_around new rest)
  end.

(** Left-to-right scan of [str.replace(old, new)] for a non-empty [old]:
    [skip] counts the characters of a match that are still to be dropped. *)
Fixpoint replace_from (old new : string) (skip : nat) (s : string) : string :=
  match s with
  | EmptyString => EmptyString
  | String c rest =>
      match skip with
      | S k => replace_from old new k rest
      | O =>
          if String.prefix old (String c rest)
          then new +:+ replace_from old new (String.length old - 1) rest
          else String c (replace_from old new 0 rest)
      end
  end.

(** [s.replace(old, new)]: every non-overlapping occurrence, leftmost
    first. *)
Definition replace (old new s : string) : string :=
  match old with
  | EmptyString => insert_around new s
  | _ => replace_from old new 0 s
  end.

(** [s.split(sep)] for a one-character separator; the result is never
    empty, [""] splits into [[""]]. *)
Fixpoint split (sep : ascii) (s : string) : list string :=
  match s with
  | EmptyString => [EmptyString]
  | String c rest =>
      if Ascii.eqb c sep then EmptyString :: split sep rest
      else match split sep rest with
           | tok :: toks => String c tok :: toks
           | [] => [String c EmptyString]
           end
  end.

(** Iterating over a string yields its characters as strings of length
    one. *)
Fixpoint chars (s : string) : list string :=
  match s with
  | EmptyString => []
  | String c rest => String c EmptyString :: chars rest
  end.

(** ASCII white space, as [int()] skips it on both sides of a literal. *)
Definition is_space (c : ascii) : bool :=
  let n := nat_of_ascii c in
  ((9 <=? n)%nat && (n <=? 13)%nat) || (n =? 32)%nat.

Fixpoint lstrip (s : string) : string :=
  match s with
  | EmptyString => EmptyString
  | String c rest => if is_space c then lstrip rest else s
  end.

Fixpoint rstrip (s : string) : string :=
  match s with
  | EmptyString => EmptyString
  | String c rest =>
      match rstrip rest with
      | EmptyString => if is_space c then EmptyString else String c EmptyString
      | kept => String c kept
      end
  end.

Definition strip (s : string) : string := rstrip (lstrip s).

Definition digit (c : ascii) : option Z :=
  let n := nat_of_ascii c in
  if ((48 <=? n)%nat && (n <=? 57)%nat) then Some (Z.of_nat n - 48) else None.

Fixpoint digits (acc : Z) (s : string) : option Z :=
  match s with
  | EmptyString => Some acc
  | String c rest =>
      match digit c with
      | Some d => digits (10 * acc + d) rest
      | None => None
      end
  end.

Definition unsigned (s : string) : option Z :=
  match s with
  | EmptyString => None
  | _ => digits 0 s
  end.

(** [int(s)] on a string, base ten: optional white space, an optional
    sign, one or more ASCII digits, optional white space.  [None] stands
    for the [ValueError] of a malformed literal.  (Digit grouping with
    underscores, accepted by later Python versions, and non-ASCII digits
    are left out: such literals count as malformed here.) *)
Definition int (s : string) : option Z :=
  match strip s with
  | String "+"%char rest => unsigned rest
  | String "-"%char rest => Z.opp <$> unsigned rest
  | body => unsigned body
  end.

(** [int(x)] on a float truncates towards zero; the float is given as the
    rational it denotes. *)
Definition int_of_float (x : QArith_base.Q) : Z :=
  Z.quot (QArith_base.Qnum x) (Z.pos (QArith_base.Qden x)).

End PyStr.

(** ** Values held by the configuration object *)

(** What docopt puts into its result for the usage text of [main]: [None]
    for an option that is absent and has no default, a boolean for a flag,
    a string for an option argument, a list of strings for [<features>...]. *)
Inductive arg : Type :=
| ANone
| ABool (b : bool)
| AStr (s : string)
| AList (l : list string).

(** An attribute of [world.config] holds a docopt value or one of the two
    values that [main] itself stores: the integer marker and the list of
    selected scenario ids. *)
Inductive value : Type :=
| Arg (a : arg)
| Int (z : Z)
| IntList (l : list Z).

Coercion Arg : arg >-> value.

(** Truth value of [if v:]. *)
Definition truthy (v : value) : bool :=
  match v with
  | Arg ANone => false
  | Arg (ABool b) => b
  | Arg (AStr s) => negb (String.eqb s "")
  | Arg (AList l) => match l with [] => false | _ => true end
  | Int z => negb (Z.eqb z 0)
  | IntList l => match l with [] => false | _ => true end
  end.

(** [v == s] for a string literal [s]: only an equal string is equal. *)
Definition eq_str (v : value) (s : string) : bool :=
  match v with
  | Arg (AStr s') => String.eqb s' s
  | _ => false
  end.

(** ** Features as [main] sees them *)

(** Modelled from the spec: the classes behind [featureparser.feature] live
    in modules that [main.py] only imports.  By the spec every scenario
    carries an identifier from one run-wide numbering. *)
Record Scenario : Type := {
  absolute_id : Z;
  sentence : string
}.

(** Modelled from the spec: a parsed feature, with the identifier and the
    path it was parsed with and its scenarios; [main] reads
    [len(f.scenarios)]. *)
Record Feature : Type := {
  feature_id : Z;
  path : string;
  scenarios : list Scenario
}.

(** ** Exceptions, events, environment *)

Inductive exn : Type :=
| FeatureFileNotFoundError (given_feature : string)
| ScenarioNotFoundError (scenario_id amount_of_scenarios : Z)
| ValueError (literal : string)
| AttributeError (name : string)
| TypeError (operation : string)
| CollaboratorError (who : string).

Inductive event : Type :=
| EvExists (p : string)
| EvIsdir (p : string)
| EvGlob (root pattern : string)
| EvParse (featurefile : string) (featureid abs_scenario_id : Z)
| EvPrint (text : string)
| EvLoad (basedir : value)
| EvMerge (features : list Feature)
| EvTime
| EvStart (features : list Feature) (early_exit marker : value).

(** The collaborators.  [parse f i c] stands for
    [p = FeatureParser(f, i, c); p.parse()] followed by the reads of
    [p.feature] and [p.current_abs_scenario_id]; [inl] is an exception raised
    by the collaborator. *)
Record Env : Type := {
  path_exists : string -> bool;
  path_isdir : string -> bool;
  recursive_glob : string -> string -> list string;
  parse : string -> Z -> Z -> exn + Feature * Z;
  load_all : value -> option exn;
  merge_steps : list Feature -> exn + list Feature;
  now : QArith_base.Q;
  runner_start : list Feature -> value -> value -> option exn
}.

(** ** State and control *)

Record State : Type := {
  config : gmap string value;
  trace : list event
}.

(** How a block of statements ends: it falls through with a value, it
    executes [return v], or it raises. *)
Inductive outcome (A : Type) : Type :=
| Normal (a : A)
| Returned (v : value)
| Raised (e : exn).

Arguments Normal {A} a.
Arguments Returned {A} v.
Arguments Raised {A} e.

Definition M (A : Type) : Type := State -> outcome A * State.

Definition ret {A} (a : A) : M A := fun st => (Normal a, st).

Definition bind {A B} (m : M A) (k : A -> M B) : M B :=
  fun st =>
    match m st with
    | (Normal a, st') => k a st'
    | (Returned v, st') => (Returned v, st')
    | (Raised e, st') => (Raised e, st')
    end.

Notation "x <- m ;; k" := (bind m (fun x => k))
  (at level 100, m at next level, right associativity).
Notation "m ;; k" := (bind m (fun _ => k))
  (at level 100, right associativity).

Definition raise {A} (e : exn) : M A := fun st => (Raised e, st).
Definition return_ {A} (v : value) : M A := fun st => (Returned v, st).

Definition emit (ev : event) : M unit :=
  fun st => (Normal tt, {| config := config st; trace := trace st ++ [ev] |}).

(** [world.config.name] *)
Definition getattr (name : string) : M value :=
  fun st =>
    match config st !! name with
    | Some v => (Normal v, st)
    | None => (Raised (AttributeError name), st)
    end.

(** [setattr(world.config, name, v)] and [world.config.name = v] *)
Definition setattr (name : string) (v : value) : M unit :=
  fun st => (Normal tt, {| config := <[name := v]> (config st); trace := trace st |}).

(** [world.config = lambda: None]: a fresh object without attributes. *)
Definition fresh_config : M unit :=
  fun st => (Normal tt, {| config := ∅; trace := trace st |}).

(** [for x in l: body(x)] *)
Fixpoint for_each {A} (l : list A) (body : A -> M unit) : M unit :=
  match l with
  | [] => ret tt
  | x :: rest => body x ;; for_each rest body
  end.

(** A loop that carries local variables [b] from one round to the next. *)
Fixpoint for_fold {A B} (l : list A) (b : B) (body : B -> A -> M B) : M B :=
  match l with
  | [] => ret b
  | x :: rest => b' <- body b x ;; for_fold rest b' body
  end.

(** [[f(x) for x in l]] *)
Fixpoint comprehension {A B} (l : list A) (f : A -> M B) : M (list B) :=
  match l with
  | [] => ret []
  | x :: rest => y <- f x ;; ys <- comprehension rest f ;; ret (y :: ys)
  end.

(** [enumerate(l)] *)
Fixpoint enumerate_from {A} (i : Z) (l : list A) : list (Z * A) :=
  match l with
  | [] => []
  | x :: rest => (i, x) :: enumerate_from (i + 1) rest
  end.

Definition enumerate {A} (l : list A) : list (Z * A) := enumerate_from 0 l.

(** Calls into the environment, each one logged. *)
Definition of_option (r : option exn) : M unit :=
  match r with
  | Some e => raise e
  | None => ret tt
  end.

Definition of_sum {A} (r : exn + A) : M A :=
  match r with
  | inl e => raise e
  | inr a => ret a
  end.

Definition os_path_exists (env : Env) (p : string) : M bool :=
  emit (EvExists p) ;; ret (path_exists env p).

Definition os_path_isdir (env : Env) (p : string) : M bool :=
  emit (EvIsdir p) ;; ret (path_isdir env p).

Definition utils_recursive_glob (env : Env) (root pattern : string) : M (list string) :=
  emit (EvGlob root pattern) ;; ret (recursive_glob env root pattern).

Definition feature_parser (env : Env) (featurefile : string) (featureid abs_scenario_id : Z)
  : M (Feature * Z) :=
  emit (EvParse featurefile featureid abs_scenario_id) ;;
  of_sum (parse env featurefile featureid abs_scenario_id).

Definition print (text : string) : M unit := emit (EvPrint text).

Definition loader_load_all (env : Env) (basedir : value) : M unit :=
  emit (EvLoad basedir) ;; of_option (load_all env basedir).

Definition matcher_merge_steps (env : Env) (features : list Feature) : M (list Feature) :=
  emit (EvMerge features) ;; of_sum (merge_steps env features).

Definition time (env : Env) : M QArith_base.Q :=
  emit EvTime ;; ret (now env).

Definition runner_start_call (env : Env) (features : list Feature) (early_exit marker : value)
  : M unit :=
  emit (EvStart features early_exit marker) ;;
  of_option (runner_start env features early_exit marker).

(** ** [setup_config] (lines 30-37) *)

(** [key.replace("--", "").replace("-", "_").replace("<", "").replace(">", "")] *)
Definition config_key (key : string) : string :=
  PyStr.replace ">" ""
    (PyStr.replace "<" ""
       (PyStr.replace "-" "_"
          (PyStr.replace "--" "" key))).

(** [arguments] is the dictionary returned by docopt, as the list of its
    items in iteration order.  The attribute store of the configuration
    object is a finite map; the attributes that a Python function object has
    of its own (names such as [__name__]) are not part of it. *)
Definition setup_config (arguments : list (string * arg)) : M unit :=
  fresh_config ;;
  for_each arguments (fun '(key, v) => setattr (config_key key) (Arg v)).

(** ** [main] (lines 88-137) *)

(** The values that [for given_feature in world.config.features] runs over.
    A string is iterated character by character; [None], a boolean and an
    integer are not iterable.  The last case is never reached, because only
    [setup_config] writes the attribute [features]: the elements of a list
    of integers are not paths. *)
Definition iterate_paths (v : value) : M (list string) :=
  match v with
  | Arg (AList l) => ret l
  | Arg (AStr s) => ret (PyStr.chars s)
  | Arg ANone | Arg (ABool _) | Int _ => raise (TypeError "iter")
  | IntList [] => ret []
  | IntList (_ :: _) => raise (TypeError "os.path.exists")
  end.

(** Lines 95-102: one round of the discovery loop; [feature_files] is the
    list built so far. *)
Definition discover_step (env : Env) (feature_files : list string) (given_feature : string)
  : M (list string) :=
  found <- os_path_exists env given_feature ;;
  if negb found then raise (FeatureFileNotFoundError given_feature)
  else
    is_dir <- os_path_isdir env given_feature ;;
    if is_dir then
      matches <- utils_recursive_glob env given_feature "*.feature" ;;
      ret (feature_files ++ matches)
    else ret (feature_files ++ [given_feature]).

(** Lines 93-102: expansion of the given paths into feature files. *)
Definition discover (env : Env) : M (list string) :=
  features <- getattr "features" ;;
  given <- iterate_paths features ;;
  for_fold given [] (discover_step env).

(** Lines 107-110: one round of the parsing loop; it carries the list of
    features and [abs_scenario_id]. *)
Definition parse_step (env : Env) (carried : list Feature * Z) (item : Z * string)
  : M (list Feature * Z) :=
  let '(features, abs_scenario_id) := carried in
  let '(featureid, featurefile) := item in
  p <- feature_parser env featurefile (featureid + 1) abs_scenario_id ;;
  ret (features ++ [p.1], p.2).

(** Lines 104-110: one parser per file, in the order of [feature_files]. *)
Definition parse_features (env : Env) (feature_files : list string) : M (list Feature) :=
  r <- for_fold (enumerate feature_files) ([], 0) (parse_step env) ;;
  ret r.1.

(** Lines 112-114. *)
Definition require_features (features : list Feature) : M unit :=
  match features with
  | [] => print "Error: no features given" ;; return_ (Int 1)
  | _ :: _ => ret tt
  end.

(** Lines 116-122: the user's step files are loaded and the steps of the
    features are bound to them; the result is the list of features as the
    matcher leaves it. *)
Definition load_and_match (env : Env) (features : list Feature) : M (list Feature) :=
  basedir <- getattr "basedir" ;;
  loader_load_all env basedir ;;
  matcher_merge_steps env features.

(** Lines 125-126. *)
Definition resolve_marker (env : Env) : M unit :=
  marker <- getattr "marker" ;;
  if eq_str marker "time.time()" then
    t <- time env ;;
    setattr "marker" (Int (PyStr.int_of_float t))
  else ret tt.

(** Line 129: [sum(len(f.scenarios) for f in features)] *)
Definition amount_of_scenarios (features : list Feature) : Z :=
  fold_right Z.add 0 (map (fun f => Z.of_nat (length (scenarios f))) features).

(** [v.split(",")]: only a string has the method. *)
Definition split_commas (v : value) : M (list string) :=
  match v with
  | Arg (AStr s) => ret (PyStr.split ","%char s)
  | _ => raise (AttributeError "split")
  end.

(** [int(s)] *)
Definition to_int (s : string) : M Z :=
  match PyStr.int s with
  | Some z => ret z
  | None => raise (ValueError s)
  end.

(** Lines 130-134.  The loop of line 132 runs over the list that line 131
    has just stored. *)
Definition select_scenarios (amount : Z) : M unit :=
  scenarios <- getattr "scenarios" ;;
  if truthy scenarios then
    scenarios <- getattr "scenarios" ;;
    tokens <- split_commas scenarios ;;
    ids <- comprehension tokens to_int ;;
    setattr "scenarios" (IntList ids) ;;
    for_each ids
      (fun s =>
         if (s <=? 0) || (s >? amount)
         then raise (ScenarioNotFoundError s amount)
         else ret tt)
  else ret tt.

(** Lines 136-137. *)
Definition start_runner (env : Env) (features : list Feature) : M unit :=
  early_exit <- getattr "early_exit" ;;
  marker <- getattr "marker" ;;
  runner_start_call env features early_exit marker.

(** The body of [main], after docopt has produced [arguments].  Falling
    through ([Normal tt]) is the implicit [return None]. *)
Definition main (env : Env) (arguments : list (string * arg)) : M unit :=
  setup_config arguments ;;
  feature_files <- discover env ;;
  features <- parse_features env feature_files ;;
  require_features features ;;
  features <- load_and_match env features ;;
  resolve_marker env ;;
  select_scenarios (amount_of_scenarios features) ;;
  start_runner env features.

(** The state in which a run begins: nothing logged, no configuration. *)
Definition initial : State := {| config := ∅; trace := [] |}.

(** * Vocabulary of the statements *)

(** ** What a block may log and which attributes it may write *)

(** [steps P K m]: from every state, [m] only appends events that satisfy
    [P] to the trace and leaves every attribute outside [K] as it is,
    however [m] ends. *)
Definition steps {A} (P : event -> Prop) (K : string -> Prop) (m : M A) : Prop :=
  forall st, exists evs,
    trace (m st).2 = trace st ++ evs /\
    Forall P evs /\
    forall k, ~ K k -> config (m st).2 !! k = config st !! k.

(** The kinds of events. *)
Definition is_fs (ev : event) : Prop :=
  match ev with EvExists _ | EvIsdir _ | EvGlob _ _ => True | _ => False end.
Definition is_parse (ev : event) : Prop :=
  match ev with EvParse _ _ _ => True | _ => False end.
Definition is_print (ev : event) : Prop :=
  match ev with EvPrint _ => True | _ => False end.
Definition is_load (ev : event) : Prop :=
  match ev with EvLoad _ => True | _ => False end.
Definition is_merge (ev : event) : Prop :=
  match ev with EvMerge _ => True | _ => False end.
Definition is_time (ev : event) : Prop :=
  match ev with EvTime => True | _ => False end.
Definition is_start (ev : event) : Prop :=
  match ev with EvStart _ _ _ => True | _ => False end.

Definition nowhere (k : string) : Prop := False.
Definition only (name : string) (k : string) : Prop := k = name.

(** The attribute store that [setup_config] leaves behind. *)
Definition built_config (arguments : list (string * arg)) : gmap string value :=
  fold_left (fun m '(key, v) => <[config_key key := Arg v]> m) arguments ∅.

(** The value of the last item whose key is turned into [name]. *)
Definition last_entry (name : string) (arguments : list (string * arg)) : option arg :=
  fold_left
    (fun found '(key, v) => if decide (config_key key = name) then Some v else found)
    arguments None.

(** The keys of the dictionary that docopt returns for the usage text of
    [main] (lines 43-61): the long name of every option and the positional
    argument. *)
Definition docopt_keys : list string :=
  [ "<features>"; "--basedir"; "--early-exit"; "--debug-steps";
    "--debug-after-failure"; "--inspect-after-failure"; "--bdd-xml";
    "--no-ansi"; "--no-line-jump"; "--write-steps-once"; "--with-traceback";
    "--marker"; "--profile"; "--dry-run"; "--scenarios"; "--shuffle";
    "--help"; "--version" ].

(** The attribute names under which they are stored. *)
Definition config_fields : list string :=
  [ "features"; "basedir"; "early_exit"; "debug_steps";
    "debug_after_failure"; "inspect_after_failure"; "bdd_xml";
    "no_ansi"; "no_line_jump"; "write_steps_once"; "with_traceback";
    "marker"; "profile"; "dry_run"; "scenarios"; "shuffle";
    "help"; "version" ].

(** The entry that docopt produces for [--marker]: the argument of
    [-m]/[--marker] when it is given, else the default that the usage text
    declares (line 78, [[default: time.time()]]). *)
Definition docopt_marker (supplied : option string) : arg :=
  AStr (default "time.time()" supplied).

(** Names that a Python function object, which the configuration object
    is, treats in a way of its own; the attribute store above does not
    describe them. *)
Definition special_attribute (name : string) : bool :=
  String.prefix "__" name || String.prefix "func_" name.


(** ** Discovery *)

(** What one existing path contributes to [feature_files], and the calls
    that the loop makes for it. *)
Definition expansion (env : Env) (given_feature : string) : list string :=
  if path_isdir env given_feature
  then recursive_glob env given_feature "*.feature"
  else [given_feature].

Definition discovery_events (env : Env) (given_feature : string) : list event :=
  if path_isdir env given_feature
  then [EvExists given_feature; EvIsdir given_feature; EvGlob given_feature "*.feature"]
  else [EvExists given_feature; EvIsdir given_feature].

#[local] Unset Elimination Schemes.
(** Modelled from the spec: the file system below a directory, which
    [radish.utils.recursive_glob] walks.  A directory is given by its
    listing: the names of its plain files and its subdirectories, each in
    the order of the listing. *)
Inductive directory : Type :=
| Directory (files : list string) (subdirectories : list (string * directory)).
#[local] Set Elimination Schemes.

(** [os.path.join(root, name)] for a [root] that does not end in a
    separator. *)
Definition join (root name : string) : string := root +:+ "/" +:+ name.

Definition has_suffix (suffix name : string) : bool :=
  (String.length suffix <=? String.length name)%nat
  && String.eqb
       (substring (String.length name - String.length suffix) (String.length suffix) name)
       suffix.

Definition feature_suffix : string := ".feature".

(** Modelled from the spec: [radish.utils.recursive_glob] is imported by
    [main.py], its definition is not part of it.  The spec has a directory
    "expanded recursively, collecting every file whose name matches a fixed
    specification-file suffix, in a deterministic (e.g., lexicographic,
    recursive pre-order) traversal order".  The walk is pre-order: the
    matching files of a directory in the order of its listing, then its
    subdirectories one after the other. *)
Fixpoint walk (root : string) (d : directory) : list string :=
  match d with
  | Directory files subdirectories =>
      map (join root) (List.filter (has_suffix feature_suffix) files)
      ++ flat_map
           (fun entry => match entry with (name, sub) => walk (join root name) sub end)
           subdirectories
  end.

(** [file_in root d p name]: the plain file [name] lies in [d] or below it,
    and [p] is its path when [d] is at [root]. *)
Inductive file_in : string -> directory -> string -> string -> Prop :=
| file_here root files subdirectories name :
    name ∈ files ->
    file_in root (Directory files subdirectories) (join root name) name
| file_below root files subdirectories sub_name sub p name :
    (sub_name, sub) ∈ subdirectories ->
    file_in (join root sub_name) sub p name ->
    file_in root (Directory files subdirectories) p name.

(** ** The run after configuration *)

(** Lines 93-137, the part of [main] that follows [setup_config]. *)
Definition configured (env : Env) : M unit :=
  feature_files <- discover env ;;
  features <- parse_features env feature_files ;;
  require_features features ;;
  features <- load_and_match env features ;;
  resolve_marker env ;;
  select_scenarios (amount_of_scenarios features) ;;
  start_runner env features.

(** Lines 93-126, up to the point where the scenario choice begins; the
    result is the list of features that the later lines work with. *)
Definition prelude (env : Env) : M (list Feature) :=
  feature_files <- discover env ;;
  features <- parse_features env feature_files ;;
  require_features features ;;
  features <- load_and_match env features ;;
  resolve_marker env ;;
  ret features.

(** The state in which [setup_config] hands over. *)
Definition configured_state (arguments : list (string * arg)) : State :=
  {| config := built_config arguments; trace := [] |}.

(** ** A small run, used to instantiate the statements *)

Module Demo.

(** A feature with [k] scenarios numbered from [c + 1]. *)
Definition feature_of (p : string) (featureid c : Z) (k : nat) : Feature :=
  {| feature_id := featureid;
     path := p;
     scenarios :=
       map (fun i => {| absolute_id := c + Z.of_nat i; sentence := "" |}) (seq 1 k) |}.

Definition listing (root : string) : directory :=
  if String.eqb root "features" then
    Directory ["login.feature"; "README"]
      [("admin", Directory ["users.feature"; "users.py"] [])]
  else Directory ["notes.txt"] [].

Definition scenarios_in (p : string) : nat :=
  if String.eqb p "features/login.feature" then 2%nat
  else if String.eqb p "features/admin/users.feature" then 3%nat
  else 1%nat.

Definition env : Env :=
  {| path_exists := fun p => negb (String.eqb p "missing.feature");
     path_isdir := fun p => String.eqb p "features" || String.eqb p "empty";
     recursive_glob := fun root _ => walk root (listing root);
     parse := fun p featureid c =>
                inr (feature_of p featureid c (scenarios_in p),
                     c + Z.of_nat (scenarios_in p));
     load_all := fun _ => None;
     merge_steps := fun features => inr features;
     now := QArith_base.Qmake 3401 2;
     runner_start := fun _ _ _ => None |}.

(** The dictionary of
    [radish <given...> -b steps] with the optional [-m] and [-s]. *)
Definition arguments (given : list string) (marker scenarios : option string)
  : list (string * arg) :=
  [ ("--basedir", AStr "steps");
    ("--early-exit", ABool false);
    ("--marker", docopt_marker marker);
    ("--scenarios", from_option AStr ANone scenarios);
    ("<features>", AList given) ].

End Demo.

(** ** Numbering *)

(** The calls of a parsing loop that starts at position [i] of
    [enumerate(feature_files)] with the counter at [c]: the file at position
    [i] is parsed with feature id [i + 1] and the counter as it stands, the
    counter that this parser leaves is the one the next file is parsed
    with.  [features] are the parsed features and [c_end] the counter after
    the last file. *)
Inductive parse_chain (env : Env)
  : Z -> Z -> list string -> list event -> list Feature -> Z -> Prop :=
| chain_nil i c : parse_chain env i c [] [] [] c
| chain_cons i c featurefile rest f c' calls features c_end :
    parse env featurefile (i + 1) c = inr (f, c') ->
    parse_chain env (i + 1) c' rest calls features c_end ->
    parse_chain env i c (featurefile :: rest)
      (EvParse featurefile (i + 1) c :: calls) (f :: features) c_end.

Definition scenario_ids (f : Feature) : list Z := map absolute_id (scenarios f).

Definition scenario_count (f : Feature) : Z := Z.of_nat (length (scenarios f)).

(** Modelled from the spec: the parser is not part of [main.py].  By the
    spec the identifiers of a file are "the contiguous range immediately
    following the last identifier consumed" before it, and the parser
    returns the counter for the next file.  With the counter holding the
    last identifier consumed, a parser started at [c] numbers its [k]
    scenarios [c + 1, ..., c + k] and leaves the counter at [c + k]. *)
Definition numbers_consecutively (env : Env) : Prop :=
  forall featurefile featureid c f c',
    parse env featurefile featureid c = inr (f, c') ->
    scenario_ids f = seqZ (c + 1) (scenario_count f) /\ c' = c + scenario_count f.

(** ** Marker *)

(** The marker that lines 125-126 leave behind for a marker [v]. *)
Definition resolved (env : Env) (v : value) : value :=
  if eq_str v "time.time()" then Int (PyStr.int_of_float (now env)) else v.

(** The events that can come before the clock is read, and after. *)
Definition before_marker (ev : event) : Prop :=
  is_fs ev \/ is_parse ev \/ is_print ev \/ is_load ev \/ is_merge ev.

Definition after_marker (ev : event) : Prop := is_start ev.

(** [timed m]: what [m] logs is a run of events that may come before the
    marker is resolved, then at most one reading of the clock, then events
    of the runner. *)
Definition timed {A} (m : M A) : Prop :=
  forall st, exists before times after,
    trace (m st).2 = trace st ++ before ++ times ++ after
    /\ Forall before_marker before
    /\ (times = [] \/ times = [EvTime])
    /\ Forall after_marker after.

(** ** Scenario choice *)

(** What [[int(s) for s in tokens]] comes to: the list of integers, or the
    first token that [int] rejects. *)
Fixpoint ints (tokens : list string) : string + list Z :=
  match tokens with
  | [] => inr []
  | token :: rest =>
      match PyStr.int token with
      | None => inl token
      | Some z =>
          match ints rest with
          | inl bad => inl bad
          | inr zs => inr (z :: zs)
          end
      end
  end.

(** The test of line 133. *)
Definition out_of_range (amount s : Z) : bool := (s <=? 0) || (s >? amount).

Definition in_range (amount s : Z) : Prop := 1 <= s <= amount.

(** The state after line 131. *)
Definition with_scenarios (ids : list Z) (st : State) : State :=
  {| config := <["scenarios" := IntList ids]> (config st); trace := trace st |}.

(** ** Ways to end *)

(** [no_return m]: [m] never ends by a [return] statement. *)
Definition no_return {A} (m : M A) : Prop :=
  forall st v st', m st <> (Returned v, st').

(** ** A run with failing collaborators, used to instantiate statements *)

Module Faulty.

(** The parser rejects [broken.feature], the loader rejects the base
    directory [nowhere], the matcher rejects a scenario-less feature list
    and the runner fails when it is asked to exit early. *)
Definition env : Env :=
  {| path_exists := path_exists Demo.env;
     path_isdir := path_isdir Demo.env;
     recursive_glob := recursive_glob Demo.env;
     parse := fun p featureid c =>
                if String.eqb p "broken.feature"
                then inl (CollaboratorError "parser")
                else parse Demo.env p featureid c;
     load_all := fun basedir =>
                   if eq_str basedir "nowhere"
                   then Some (CollaboratorError "loader")
                   else None;
     merge_steps := fun features =>
                      if amount_of_scenarios features =? 0
                      then inl (CollaboratorError "matcher")
                      else inr features;
     now := now Demo.env;
     runner_start := fun _ early_exit _ =>
                       if truthy early_exit
                       then Some (CollaboratorError "runner")
                       else None |}.

End Faulty.

(** ** The calls of a complete run *)

(** What a reading of the marker [v] adds to the trace. *)
Definition clock_reading (v : value) : list event :=
  if eq_str v "time.time()" then [EvTime] else [].

(** How [main] ends when the runner has been started. *)
Definition runner_outcome (r : option exn) : outcome unit :=
  match r with
  | Some e => Raised e
  | None => Normal tt
  end.

(** ** Characters of a name *)

(** [c in s] for a character [c]. *)
Fixpoint occurs (c : ascii) (s : string) : bool :=
  match s with
  | EmptyString => false
  | String a rest => Ascii.eqb a c || occurs c rest
  end.

(** A key that the replacements of [config_key] have nothing to do with. *)
Definition plain_key (key : string) : Prop :=
  occurs "-" key = false /\ occurs "<" key = false /\ occurs ">" key = false.

(** ** The order of the calls *)

(** The stage of a run that a call belongs to. *)
Definition rank (ev : event) : nat :=
  match ev with
  | EvExists _ | EvIsdir _ | EvGlob _ _ => 0
  | EvParse _ _ _ => 1
  | EvPrint _ => 2
  | EvLoad _ => 3
  | EvMerge _ => 4
  | EvTime => 5
  | EvStart _ _ _ => 6
  end%nat.

(** [follows a b]: the call [b] may come after the call [a].  It belongs
    to a later stage, or both are calls of the file system or both are
    calls of a parser; the other calls do not occur twice. *)
Definition follows (a b : event) : Prop :=
  (rank a < rank b)%nat \/ (rank a = rank b /\ rank a <= 1)%nat.

(** [ranked lo hi m]: what [m] logs is in order and belongs to the stages
    from [lo] to [hi]. *)
Definition ranked {A} (lo hi : nat) (m : M A) : Prop :=
  forall st, exists evs,
    trace (m st).2 = trace st ++ evs
    /\ StronglySorted follows evs
    /\ Forall (fun ev => lo <= rank ev <= hi)%nat evs.
(** * Properties *)

(** ** The string operations on the inputs of the source *)

Example config_key_flag : config_key "--debug-after-failure" = "debug_after_failure".
Proof. reflexivity. Qed.

Example config_key_positional : config_key "<features>" = "features".
Proof. reflexivity. Qed.

Example replace_leftmost_first : PyStr.replace "--" "" "---x" = "-x".
Proof. reflexivity. Qed.

Example split_keeps_empty_tokens : PyStr.split "," "3,,1," = ["3"; ""; "1"; ""].
Proof. reflexivity. Qed.

Example split_empty_string : PyStr.split "," "" = [""].
Proof. reflexivity. Qed.

Example int_accepts_space_and_sign :
  map PyStr.int [" 12 "; "+5"; "-07"; ""; "1 2"; "x"; "+"]
  = [Some 12; Some 5; Some (-7); None; None; None; None].
Proof. reflexivity. Qed.

Example int_of_float_truncates :
  PyStr.int_of_float (QArith_base.Qmake 3401 2) = 1700
  /\ PyStr.int_of_float (QArith_base.Qmake (-7) 2) = -3.
Proof. split; reflexivity. Qed.

(** ** What a block may log and which attributes it may write *)

Section Steps.
Context (P : event -> Prop) (K : string -> Prop).

Lemma steps_here {A} (o : outcome A) : steps P K (fun st => (o, st)).
Proof.
  intros st. exists []. simpl. rewrite app_nil_r. auto.
Qed.

Lemma steps_ret {A} (a : A) : steps P K (ret a).
Proof. apply steps_here. Qed.

Lemma steps_raise {A} (e : exn) : steps P K (@raise A e).
Proof. apply steps_here. Qed.

Lemma steps_return {A} (v : value) : steps P K (@return_ A v).
Proof. apply steps_here. Qed.

Lemma steps_emit (ev : event) : P ev -> steps P K (emit ev).
Proof.
  intros Hev st. exists [ev]. simpl. auto.
Qed.

Lemma steps_getattr (name : string) : steps P K (getattr name).
Proof.
  intros st. exists []. unfold getattr.
  destruct (config st !! name); simpl; rewrite app_nil_r; auto.
Qed.

Lemma steps_setattr (name : string) (v : value) : K name -> steps P K (setattr name v).
Proof.
  intros Hname st. exists []. simpl. rewrite app_nil_r.
  repeat split; auto. intros k Hk.
  apply lookup_insert_ne. intros ->. contradiction.
Qed.

Lemma steps_bind {A B} (m : M A) (k : A -> M B) :
  steps P K m -> (forall a, steps P K (k a)) -> steps P K (bind m k).
Proof.
  intros Hm Hk st. unfold bind.
  destruct (Hm st) as (evs & Htr & Hevs & Hcfg).
  destruct (m st) as [[a | v | e] st1]; simpl in *;
    try (exists evs; auto; fail).
  destruct (Hk a st1) as (evs' & Htr' & Hevs' & Hcfg').
  exists (evs ++ evs'). rewrite Htr', Htr, app_assoc.
  repeat split; [apply Forall_app; auto |].
  intros key Hkey. rewrite Hcfg', Hcfg; auto.
Qed.

Lemma steps_of_option (r : option exn) : steps P K (of_option r).
Proof. destruct r; apply steps_here. Qed.

Lemma steps_of_sum {A} (r : exn + A) : steps P K (of_sum r).
Proof. destruct r; apply steps_here. Qed.

Lemma steps_for_each {A} (l : list A) (body : A -> M unit) :
  (forall x, steps P K (body x)) -> steps P K (for_each l body).
Proof.
  intros Hbody. induction l as [| x rest IH]; simpl.
  - apply steps_ret.
  - apply steps_bind; auto.
Qed.

Lemma steps_for_fold {A B} (l : list A) (b : B) (body : B -> A -> M B) :
  (forall b x, steps P K (body b x)) -> steps P K (for_fold l b body).
Proof.
  intros Hbody. revert b. induction l as [| x rest IH]; intros b; simpl.
  - apply steps_ret.
  - apply steps_bind; auto.
Qed.

Lemma steps_comprehension {A B} (l : list A) (f : A -> M B) :
  (forall x, steps P K (f x)) -> steps P K (comprehension l f).
Proof.
  intros Hf. induction l as [| x rest IH]; simpl.
  - apply steps_ret.
  - apply steps_bind; auto. intros y.
    apply steps_bind; auto. intros ys. apply steps_ret.
Qed.
End Steps.

Lemma steps_mono {A} (P Q : event -> Prop) (K L : string -> Prop) (m : M A) :
  (forall ev, P ev -> Q ev) -> (forall k, K k -> L k) -> steps P K m -> steps Q L m.
Proof.
  intros HPQ HKL Hm st. destruct (Hm st) as (evs & Htr & Hevs & Hcfg).
  exists evs. split; [exact Htr |]. split.
  - eapply Forall_impl; eauto.
  - intros k Hk. apply Hcfg. intros HK. apply Hk, HKL, HK.
Qed.

(** One proof step for a goal [steps P K m], by the shape of [m]. *)
Ltac steps_step :=
  match goal with
  | |- steps _ _ (bind _ _) => apply steps_bind
  | |- steps _ _ (ret _) => apply steps_ret
  | |- steps _ _ (raise _) => apply steps_raise
  | |- steps _ _ (return_ _) => apply steps_return
  | |- steps _ _ (getattr _) => apply steps_getattr
  | |- steps _ _ (of_option _) => apply steps_of_option
  | |- steps _ _ (of_sum _) => apply steps_of_sum
  | |- steps _ _ (emit _) => apply steps_emit; simpl; auto
  | |- steps _ _ (setattr _ _) => apply steps_setattr; simpl; auto
  | |- steps _ _ (for_each _ _) => apply steps_for_each
  | |- steps _ _ (for_fold _ _ _) => apply steps_for_fold
  | |- steps _ _ (comprehension _ _) => apply steps_comprehension
  | |- steps _ _ (if ?b then _ else _) => destruct b
  | |- steps _ _ (match ?x with _ => _ end) => destruct x
  | |- steps _ _ ((match ?x with _ => _ end) _) => destruct x
  | |- forall _, _ => intro
  | |- steps _ _ _ => progress cbv beta
  end.

Ltac steps_auto := repeat steps_step.

Lemma discover_steps env : steps is_fs nowhere (discover env).
Proof.
  unfold discover, discover_step, iterate_paths, os_path_exists, os_path_isdir,
    utils_recursive_glob.
  steps_auto.
Qed.

Lemma parse_features_steps env feature_files :
  steps is_parse nowhere (parse_features env feature_files).
Proof.
  unfold parse_features, parse_step, feature_parser. steps_auto.
Qed.

Lemma require_features_steps features : steps is_print nowhere (require_features features).
Proof.
  unfold require_features, print. steps_auto.
Qed.

Lemma load_and_match_steps env features :
  steps (fun ev => is_load ev \/ is_merge ev) nowhere (load_and_match env features).
Proof.
  unfold load_and_match, loader_load_all, matcher_merge_steps. steps_auto.
Qed.

Lemma resolve_marker_steps env : steps is_time (only "marker") (resolve_marker env).
Proof.
  unfold resolve_marker, time. steps_auto. reflexivity.
Qed.

Lemma select_scenarios_steps amount :
  steps (fun _ => False) (only "scenarios") (select_scenarios amount).
Proof.
  unfold select_scenarios, split_commas, to_int. steps_auto. reflexivity.
Qed.

Lemma start_runner_steps env features : steps is_start nowhere (start_runner env features).
Proof.
  unfold start_runner, runner_start_call. steps_auto.
Qed.

(** ** Running a sequence *)

Lemma bind_normal {A B} (m : M A) (k : A -> M B) st a st' :
  m st = (Normal a, st') -> bind m k st = k a st'.
Proof. intros H. unfold bind. rewrite H. reflexivity. Qed.

Lemma bind_returned {A B} (m : M A) (k : A -> M B) st v st' :
  m st = (Returned v, st') -> bind m k st = (Returned v, st').
Proof. intros H. unfold bind. rewrite H. reflexivity. Qed.

Lemma bind_raised {A B} (m : M A) (k : A -> M B) st e st' :
  m st = (Raised e, st') -> bind m k st = (Raised e, st').
Proof. intros H. unfold bind. rewrite H. reflexivity. Qed.

Lemma bind_assoc {A B C} (m : M A) (k : A -> M B) (h : B -> M C) st :
  bind (bind m k) h st = bind m (fun a => bind (k a) h) st.
Proof. unfold bind. destruct (m st) as [[a | v | e] st1]; reflexivity. Qed.

(** ** Configuration construction *)

Lemma for_each_setattr (arguments : list (string * arg)) (m : gmap string value) tr :
  for_each arguments (fun '(key, v) => setattr (config_key key) (Arg v))
    {| config := m; trace := tr |}
  = (Normal tt,
     {| config := fold_left (fun m '(key, v) => <[config_key key := Arg v]> m) arguments m;
        trace := tr |}).
Proof.
  revert m. induction arguments as [| [key v] rest IH]; intros m; simpl.
  - reflexivity.
  - unfold bind. simpl. apply IH.
Qed.

Lemma setup_config_run arguments st :
  setup_config arguments st
  = (Normal tt, {| config := built_config arguments; trace := trace st |}).
Proof.
  unfold setup_config, bind, fresh_config. apply for_each_setattr.
Qed.

Lemma built_config_snoc arguments key v :
  built_config (arguments ++ [(key, v)])
  = <[config_key key := Arg v]> (built_config arguments).
Proof. unfold built_config. rewrite fold_left_app. reflexivity. Qed.

Lemma last_entry_snoc name arguments key v :
  last_entry name (arguments ++ [(key, v)])
  = if decide (config_key key = name) then Some v else last_entry name arguments.
Proof. unfold last_entry. rewrite fold_left_app. reflexivity. Qed.

Lemma built_config_lookup arguments name :
  built_config arguments !! name = Arg <$> last_entry name arguments.
Proof.
  induction arguments as [| [key v] rest IH] using rev_ind.
  - reflexivity.
  - rewrite built_config_snoc, last_entry_snoc, lookup_insert.
    destruct (decide (config_key key = name)); [reflexivity | exact IH].
Qed.

Lemma built_config_stores arguments key v :
  (key, v) ∈ arguments -> is_Some (built_config arguments !! config_key key).
Proof.
  induction arguments as [| [key' v'] rest IH] using rev_ind; intros Hin.
  - inversion Hin.
  - rewrite built_config_snoc, lookup_insert.
    destruct (decide (config_key key' = config_key key)); [eauto |].
    apply elem_of_app in Hin as [Hin | Hin]; [auto |].
    apply list_elem_of_singleton in Hin. congruence.
Qed.

(** C8, as the code has it.  Construction goes through for every
    dictionary whose keys do not end up on a special attribute name: each
    item is stored under the name that the four replacements make of its key
    (an item stored later replaces an earlier one of the same name), whether
    or not the key is one of the flags of the usage text; nothing is
    rejected.  The flags of the usage text end up on eighteen different
    attribute names. *)
Theorem setup_config_accepts_every_key (arguments : list (string * arg)) (st : State) :
  Forall (fun item => special_attribute (config_key item.1) = false) arguments ->
  setup_config arguments st
    = (Normal tt, {| config := built_config arguments; trace := trace st |})
  /\ (forall name, built_config arguments !! name = Arg <$> last_entry name arguments)
  /\ (forall key v, (key, v) ∈ arguments ->
        is_Some (built_config arguments !! config_key key))
  /\ config_key <$> docopt_keys = config_fields
  /\ NoDup config_fields.
Proof.
  intros _. split; [apply setup_config_run |].
  split; [apply built_config_lookup |].
  split; [apply built_config_stores |].
  split; [reflexivity |].
  apply (bool_decide_unpack _). vm_compute. reflexivity.
Qed.

Lemma setup_config_accepts_every_key_witness :
  setup_config [("--early-exit", ABool true); ("--no-such-flag", AStr "x")] initial
  = (Normal tt,
     {| config := <["no_such_flag" := Arg (AStr "x")]>
                    (<["early_exit" := Arg (ABool true)]> ∅);
        trace := [] |}).
Proof.
  refine (proj1 (setup_config_accepts_every_key
                   [("--early-exit", ABool true); ("--no-such-flag", AStr "x")]
                   initial _)).
  repeat constructor.
Defined.

(** C8, as the claim has it, fails: a dictionary with a key that no flag of
    the usage text produces is accepted, and the entry is stored. *)
Lemma setup_config_unknown_flag_counterexample :
  ~ (forall (arguments : list (string * arg)) key v,
       (key, v) ∈ arguments -> key ∉ docopt_keys ->
       exists e st', setup_config arguments initial = (Raised e, st'))
  /\ ("--no-such-flag" ∉ docopt_keys)
  /\ ((setup_config [("--no-such-flag", ABool true)] initial).1 = Normal tt)
  /\ (config (setup_config [("--no-such-flag", ABool true)] initial).2 !! "no_such_flag"
      = Some (Arg (ABool true))).
Proof.
  assert (Hout : "--no-such-flag" ∉ docopt_keys).
  { apply (bool_decide_unpack _). vm_compute. reflexivity. }
  split; [| split; [exact Hout | split; reflexivity]].
  intros Hclaim.
  destruct (Hclaim [("--no-such-flag", ABool true)] "--no-such-flag" (ABool true))
    as (e & st' & Hrun).
  - apply list_elem_of_singleton. reflexivity.
  - exact Hout.
  - rewrite setup_config_run in Hrun. discriminate Hrun.
Qed.

(** ** The parts of [main] *)

Lemma main_configured env arguments st :
  main env arguments st
  = configured env {| config := built_config arguments; trace := trace st |}.
Proof.
  unfold main. erewrite bind_normal by apply setup_config_run. reflexivity.
Qed.

Lemma configured_prelude env st :
  configured env st
  = bind (prelude env)
      (fun features =>
         select_scenarios (amount_of_scenarios features) ;; start_runner env features) st.
Proof.
  unfold configured, prelude, bind.
  destruct (discover env st) as [[files | v | e] st1]; try reflexivity.
  destruct (parse_features env files st1) as [[features | v | e] st2]; try reflexivity.
  destruct (require_features features st2) as [[[] | v | e] st3]; try reflexivity.
  destruct (load_and_match env features st3) as [[features' | v | e] st4]; try reflexivity.
  destruct (resolve_marker env st4) as [[[] | v | e] st5]; reflexivity.
Qed.

Lemma steps_nowhere_config {A} (P : event -> Prop) (m : M A) st :
  steps P nowhere m -> config (m st).2 = config st.
Proof.
  intros Hm. destruct (Hm st) as (evs & _ & _ & Hcfg).
  apply map_eq. intros k. apply Hcfg. intros [].
Qed.

(** ** Discovery *)

Lemma for_fold_app {A B} (l1 l2 : list A) (b : B) (body : B -> A -> M B) st :
  for_fold (l1 ++ l2) b body st
  = bind (for_fold l1 b body) (fun b' => for_fold l2 b' body) st.
Proof.
  revert b st. induction l1 as [| x rest IH]; intros b st; simpl.
  - reflexivity.
  - unfold bind.
    destruct (body b x st) as [[b' | v | e] st1]; try reflexivity.
    rewrite IH. reflexivity.
Qed.

Lemma discover_step_found env feature_files given_feature st :
  path_exists env given_feature = true ->
  discover_step env feature_files given_feature st
  = (Normal (feature_files ++ expansion env given_feature),
     {| config := config st;
        trace := trace st ++ discovery_events env given_feature |}).
Proof.
  intros Hfound.
  unfold discover_step, expansion, discovery_events, bind,
    os_path_exists, os_path_isdir, utils_recursive_glob, emit, ret; simpl.
  rewrite Hfound; simpl.
  destruct (path_isdir env given_feature); simpl;
    repeat rewrite <- app_assoc; reflexivity.
Qed.

Lemma discover_step_missing env feature_files given_feature st :
  path_exists env given_feature = false ->
  discover_step env feature_files given_feature st
  = (Raised (FeatureFileNotFoundError given_feature),
     {| config := config st; trace := trace st ++ [EvExists given_feature] |}).
Proof.
  intros Hmissing.
  unfold discover_step, bind, os_path_exists, emit, ret, raise; simpl.
  rewrite Hmissing. reflexivity.
Qed.

Lemma discover_loop_found env given feature_files st :
  Forall (fun p => path_exists env p = true) given ->
  for_fold given feature_files (discover_step env) st
  = (Normal (feature_files ++ flat_map (expansion env) given),
     {| config := config st;
        trace := trace st ++ flat_map (discovery_events env) given |}).
Proof.
  intros Hall. revert feature_files st.
  induction Hall as [| p rest Hp Hrest IH]; intros feature_files st; simpl.
  - rewrite !app_nil_r. destruct st; reflexivity.
  - erewrite bind_normal by (apply discover_step_found; exact Hp).
    rewrite IH. simpl. rewrite <- !app_assoc. reflexivity.
Qed.

Lemma discover_loop_missing env pre missing post feature_files st :
  Forall (fun p => path_exists env p = true) pre ->
  path_exists env missing = false ->
  for_fold (pre ++ missing :: post) feature_files (discover_step env) st
  = (Raised (FeatureFileNotFoundError missing),
     {| config := config st;
        trace := trace st ++ flat_map (discovery_events env) pre ++ [EvExists missing] |}).
Proof.
  intros Hpre Hmissing.
  rewrite for_fold_app.
  erewrite bind_normal by (apply discover_loop_found; exact Hpre).
  simpl. erewrite bind_raised by (apply discover_step_missing; exact Hmissing).
  simpl. rewrite <- app_assoc. reflexivity.
Qed.

Lemma discover_list env given st :
  config st !! "features" = Some (Arg (AList given)) ->
  discover env st = for_fold given [] (discover_step env) st.
Proof.
  intros Hfeatures. unfold discover, bind, getattr. rewrite Hfeatures. reflexivity.
Qed.

Lemma discovery_events_fs env given :
  Forall is_fs (flat_map (discovery_events env) given).
Proof.
  induction given as [| p rest IH]; simpl.
  - constructor.
  - apply Forall_app. split; [| exact IH].
    unfold discovery_events. destruct (path_isdir env p); repeat constructor.
Qed.

Lemma first_missing env given :
  (exists p, p ∈ given /\ path_exists env p = false) ->
  exists pre missing post,
    given = pre ++ missing :: post
    /\ Forall (fun p => path_exists env p = true) pre
    /\ path_exists env missing = false.
Proof.
  induction given as [| q rest IH]; intros (p & Hin & Hp).
  - inversion Hin.
  - destruct (path_exists env q) eqn:Hq.
    + apply elem_of_cons in Hin as [-> | Hin]; [congruence |].
      destruct IH as (pre & missing & post & -> & Hpre & Hmissing); [eauto |].
      exists (q :: pre), missing, post. repeat split; auto.
    + exists [], q, rest. repeat split; auto.
Qed.

(** C3.  When the list of given paths is [pre ++ missing :: post], every
    path of [pre] exists and [missing] does not, [main] raises
    [FeatureFileNotFoundError(missing)].  The calls made until then are the
    ones for the paths of [pre] and the one test of [missing]: nothing is
    asked about a path of [post], and no parser, loader, matcher or runner
    is called.  Every list that holds a path that does not exist is of this
    form. *)
Theorem missing_path_stops_discovery
    (env : Env) (arguments : list (string * arg)) (pre post : list string) (missing : string) :
  built_config arguments !! "features" = Some (Arg (AList (pre ++ missing :: post))) ->
  Forall (fun p => path_exists env p = true) pre ->
  path_exists env missing = false ->
  main env arguments initial
    = (Raised (FeatureFileNotFoundError missing),
       {| config := built_config arguments;
          trace := flat_map (discovery_events env) pre ++ [EvExists missing] |})
  /\ Forall is_fs (trace (main env arguments initial).2)
  /\ (forall given,
        (exists p, p ∈ given /\ path_exists env p = false) ->
        exists pre' missing' post',
          given = pre' ++ missing' :: post'
          /\ Forall (fun p => path_exists env p = true) pre'
          /\ path_exists env missing' = false).
Proof.
  intros Hfeatures Hpre Hmissing.
  assert (Hrun : main env arguments initial
    = (Raised (FeatureFileNotFoundError missing),
       {| config := built_config arguments;
          trace := flat_map (discovery_events env) pre ++ [EvExists missing] |})).
  { rewrite main_configured. unfold configured.
    erewrite bind_raised; [reflexivity |].
    rewrite discover_list with (given := pre ++ missing :: post) by exact Hfeatures.
    rewrite discover_loop_missing by assumption. reflexivity. }
  split; [exact Hrun |]. split; [| apply first_missing].
  rewrite Hrun. simpl. apply Forall_app. split.
  - apply discovery_events_fs.
  - repeat constructor.
Qed.

Lemma missing_path_stops_discovery_witness :
  main Demo.env
    (Demo.arguments ["features"; "missing.feature"; "extra.feature"] None None) initial
  = (Raised (FeatureFileNotFoundError "missing.feature"),
     {| config :=
          built_config
            (Demo.arguments ["features"; "missing.feature"; "extra.feature"] None None);
        trace := [EvExists "features"; EvIsdir "features"; EvGlob "features" "*.feature";
                  EvExists "missing.feature"] |}).
Proof.
  refine (proj1 (missing_path_stops_discovery Demo.env
                   (Demo.arguments ["features"; "missing.feature"; "extra.feature"] None None)
                   ["features"] ["extra.feature"] "missing.feature" _ _ _)).
  - vm_compute. reflexivity.
  - repeat constructor.
  - reflexivity.
Defined.

Lemma parse_features_nil env st : parse_features env [] st = (Normal [], st).
Proof. reflexivity. Qed.

(** C4.  When discovery ends with an empty list of feature files, [main]
    prints its message and returns 1: a value, not an exception, and not
    zero.  Up to that point only the file system has been asked: no parser,
    loader, matcher or runner call is in the trace. *)
Theorem no_feature_files_returns_one
    (env : Env) (arguments : list (string * arg)) (st1 : State) :
  discover env (configured_state arguments) = (Normal [], st1) ->
  main env arguments initial
    = (Returned (Int 1),
       {| config := built_config arguments;
          trace := trace st1 ++ [EvPrint "Error: no features given"] |})
  /\ Int 1 <> Int 0
  /\ Forall is_fs (trace st1)
  /\ Forall (fun ev => is_fs ev \/ is_print ev) (trace (main env arguments initial).2).
Proof.
  intros Hdiscover.
  assert (Hcfg : config st1 = built_config arguments).
  { pose proof (steps_nowhere_config is_fs (discover env) (configured_state arguments)
                  (discover_steps env)) as H.
    rewrite Hdiscover in H. exact H. }
  assert (Hfs : Forall is_fs (trace st1)).
  { destruct (discover_steps env (configured_state arguments)) as (evs & Htr & Hevs & _).
    rewrite Hdiscover in Htr. simpl in Htr. rewrite Htr. exact Hevs. }
  assert (Hrun : main env arguments initial
    = (Returned (Int 1),
       {| config := built_config arguments;
          trace := trace st1 ++ [EvPrint "Error: no features given"] |})).
  { rewrite main_configured. unfold configured.
    change {| config := built_config arguments; trace := trace initial |}
      with (configured_state arguments).
    erewrite bind_normal by exact Hdiscover.
    erewrite bind_normal by apply parse_features_nil.
    unfold require_features, print, bind, emit, return_. simpl.
    rewrite Hcfg. reflexivity. }
  split; [exact Hrun |]. split; [discriminate |]. split; [exact Hfs |].
  rewrite Hrun. simpl. apply Forall_app. split.
  - eapply Forall_impl; [exact Hfs |]. intros ev Hev. left. exact Hev.
  - constructor; [right; exact I | constructor].
Qed.

Lemma no_feature_files_returns_one_witness :
  main Demo.env (Demo.arguments ["empty"] None None) initial
  = (Returned (Int 1),
     {| config := built_config (Demo.arguments ["empty"] None None);
        trace := [EvExists "empty"; EvIsdir "empty"; EvGlob "empty" "*.feature";
                  EvPrint "Error: no features given"] |}).
Proof.
  refine (proj1 (no_feature_files_returns_one Demo.env
                   (Demo.arguments ["empty"] None None)
                   {| config := built_config (Demo.arguments ["empty"] None None);
                      trace := [EvExists "empty"; EvIsdir "empty";
                                EvGlob "empty" "*.feature"] |} _)).
  vm_compute. reflexivity.
Defined.

(** *** The directory walk *)

Lemma directory_ind (P : directory -> Prop) :
  (forall files subdirectories,
      Forall (fun entry => P entry.2) subdirectories ->
      P (Directory files subdirectories)) ->
  forall d, P d.
Proof.
  intros Hstep. fix IH 1. intros [files subdirectories].
  apply Hstep. induction subdirectories as [| [name sub] rest IHrest].
  - constructor.
  - constructor; [apply IH | exact IHrest].
Qed.

Lemma walk_file_in d : forall root f,
  f ∈ walk root d <->
  exists name, file_in root d f name /\ has_suffix feature_suffix name = true.
Proof.
  induction d as [files subdirectories IH] using directory_ind.
  intros root f. simpl. rewrite elem_of_app, !list_elem_of_In, in_map_iff, in_flat_map.
  split.
  - intros [(name & <- & Hname) | ([sub_name sub] & Hentry & Hf)].
    + apply filter_In in Hname as [Hname Hsuffix].
      exists name. split; [| exact Hsuffix].
      apply file_here. apply list_elem_of_In. exact Hname.
    + apply list_elem_of_In in Hentry, Hf.
      rewrite Forall_forall in IH.
      apply (IH _ Hentry) in Hf as (name & Hin & Hsuffix).
      exists name. split; [| exact Hsuffix].
      eapply file_below; eauto.
  - intros (name & Hin & Hsuffix).
    inversion Hin as [? ? ? ? Hname | ? ? ? sub_name sub ? ? Hentry Hbelow]; subst.
    + left. exists name. split; [reflexivity |].
      apply filter_In. split; [apply list_elem_of_In; exact Hname | exact Hsuffix].
    + right. exists (sub_name, sub). split; [apply list_elem_of_In; exact Hentry |].
      apply list_elem_of_In. rewrite Forall_forall in IH.
      apply (IH _ Hentry). exists name. split; [exact Hbelow | exact Hsuffix].
Qed.

(** C9.  When every given path exists, discovery ends with the
    concatenation, in argument order, of what each path contributes: the
    path itself when it is not a directory, whatever its name is, and the
    result of the recursive walk when it is one.  The result of the walk is
    kept in its order; with the walk of the spec, it holds exactly the files
    in and below the directory whose name ends in [.feature].  Nothing is
    removed: a path given twice contributes twice. *)
Theorem discover_expands_in_order
    (env : Env) (listing : string -> directory) (given : list string) (st : State) :
  config st !! "features" = Some (Arg (AList given)) ->
  Forall (fun p => path_exists env p = true) given ->
  (forall root, path_isdir env root = true ->
     recursive_glob env root "*.feature" = walk root (listing root)) ->
  discover env st
    = (Normal (flat_map (expansion env) given),
       {| config := config st;
          trace := trace st ++ flat_map (discovery_events env) given |})
  /\ (forall p, path_isdir env p = false -> expansion env p = [p])
  /\ (forall p f, path_isdir env p = true ->
        f ∈ expansion env p <->
        exists name, file_in p (listing p) f name /\ has_suffix feature_suffix name = true)
  /\ (forall front back,
        flat_map (expansion env) (front ++ back)
        = flat_map (expansion env) front ++ flat_map (expansion env) back)
  /\ (forall p, path_isdir env p = false -> flat_map (expansion env) [p; p] = [p; p]).
Proof.
  intros Hfeatures Hall Hglob.
  split.
  { rewrite discover_list with (given := given) by exact Hfeatures.
    apply discover_loop_found. exact Hall. }
  split.
  { intros p Hplain. unfold expansion. rewrite Hplain. reflexivity. }
  split.
  { intros p f Hdir. unfold expansion. rewrite Hdir, (Hglob p Hdir).
    apply walk_file_in. }
  split.
  { intros front back. apply flat_map_app. }
  intros p Hplain. simpl. unfold expansion. rewrite Hplain. reflexivity.
Qed.

Lemma discover_expands_in_order_witness :
  discover Demo.env
    (configured_state (Demo.arguments ["x.txt"; "features"; "x.txt"] None None))
  = (Normal ["x.txt"; "features/login.feature"; "features/admin/users.feature"; "x.txt"],
     {| config := built_config (Demo.arguments ["x.txt"; "features"; "x.txt"] None None);
        trace := [EvExists "x.txt"; EvIsdir "x.txt";
                  EvExists "features"; EvIsdir "features"; EvGlob "features" "*.feature";
                  EvExists "x.txt"; EvIsdir "x.txt"] |}).
Proof.
  refine (proj1 (discover_expands_in_order Demo.env Demo.listing
                   ["x.txt"; "features"; "x.txt"]
                   (configured_state (Demo.arguments ["x.txt"; "features"; "x.txt"] None None))
                   _ _ _)).
  - vm_compute. reflexivity.
  - repeat constructor.
  - intros root _. reflexivity.
Defined.

(** ** Parsing and numbering *)

Lemma parse_step_run env features c i featurefile st :
  parse_step env (features, c) (i, featurefile) st
  = match parse env featurefile (i + 1) c with
    | inl e =>
        (Raised e,
         {| config := config st; trace := trace st ++ [EvParse featurefile (i + 1) c] |})
    | inr (f, c') =>
        (Normal (features ++ [f], c'),
         {| config := config st; trace := trace st ++ [EvParse featurefile (i + 1) c] |})
    end.
Proof.
  unfold parse_step, feature_parser, bind, emit, of_sum, ret, raise. simpl.
  destruct (parse env featurefile (i + 1) c) as [e | [f c']]; reflexivity.
Qed.

Lemma parse_loop_chain env feature_files :
  forall i c acc st out st',
    for_fold (enumerate_from i feature_files) (acc, c) (parse_step env) st
      = (Normal out, st') ->
    exists calls features c_end,
      out = (acc ++ features, c_end)
      /\ parse_chain env i c feature_files calls features c_end
      /\ trace st' = trace st ++ calls
      /\ config st' = config st.
Proof.
  induction feature_files as [| featurefile rest IH]; intros i c acc st out st' Hrun.
  - simpl in Hrun. injection Hrun as <- <-.
    exists [], [], c. rewrite !app_nil_r. repeat split. constructor.
  - cbn [for_fold enumerate_from] in Hrun.
    unfold bind in Hrun. rewrite parse_step_run in Hrun.
    destruct (parse env featurefile (i + 1) c) as [e | [f c']] eqn:Hparse;
      [discriminate Hrun |].
    apply IH in Hrun as (calls & features & c_end & -> & Hchain & Htr & Hcfg).
    exists (EvParse featurefile (i + 1) c :: calls), (f :: features), c_end.
    simpl in Htr, Hcfg. rewrite <- app_assoc in Htr. rewrite <- app_assoc.
    repeat split; auto. econstructor; eauto.
Qed.

Lemma parse_features_chain env feature_files st features st' :
  parse_features env feature_files st = (Normal features, st') ->
  exists calls c_end,
    parse_chain env 0 0 feature_files calls features c_end
    /\ trace st' = trace st ++ calls
    /\ config st' = config st.
Proof.
  unfold parse_features, bind, enumerate. intros Hrun.
  destruct (for_fold (enumerate_from 0 feature_files) ([], 0) (parse_step env) st)
    as [[out | v | e] st1] eqn:Hloop; try discriminate Hrun.
  injection Hrun as <- <-.
  apply parse_loop_chain in Hloop as (calls & features & c_end & -> & Hchain & Htr & Hcfg).
  exists calls, c_end. auto.
Qed.

Lemma parse_chain_lengths env i c feature_files calls features c_end :
  parse_chain env i c feature_files calls features c_end ->
  length calls = length feature_files /\ length features = length feature_files.
Proof.
  induction 1 as [| ? ? ? ? ? ? ? ? ? ? ? [IHc IHf]]; simpl; auto.
Qed.

Lemma parse_chain_call env i c feature_files calls features c_end :
  parse_chain env i c feature_files calls features c_end ->
  forall n featurefile,
    feature_files !! n = Some featurefile ->
    exists c_n, calls !! n = Some (EvParse featurefile (i + Z.of_nat n + 1) c_n)
                /\ (n = 0%nat -> c_n = c).
Proof.
  induction 1 as [| i c file rest f c' calls features c_end Hparse Hchain IH];
    intros n featurefile Hn.
  - discriminate Hn.
  - destruct n as [| n]; simpl in *.
    + injection Hn as <-. exists c. rewrite Z.add_0_r. auto.
    + destruct (IH n featurefile Hn) as (c_n & Hcall & _).
      exists c_n. split; [| discriminate].
      rewrite Hcall. do 3 f_equal. lia.
Qed.

Lemma amount_of_scenarios_cons f features :
  amount_of_scenarios (f :: features) = scenario_count f + amount_of_scenarios features.
Proof. reflexivity. Qed.

Lemma amount_of_scenarios_nonneg features : 0 <= amount_of_scenarios features.
Proof.
  induction features as [| f rest IH].
  - reflexivity.
  - rewrite amount_of_scenarios_cons. unfold scenario_count. lia.
Qed.

Lemma parse_chain_ranges env i c feature_files calls features c_end :
  numbers_consecutively env ->
  parse_chain env i c feature_files calls features c_end ->
  c_end = c + amount_of_scenarios features
  /\ concat (map scenario_ids features) = seqZ (c + 1) (amount_of_scenarios features)
  /\ forall n f, features !! n = Some f ->
       scenario_ids f
       = seqZ (c + 1 + amount_of_scenarios (take n features)) (scenario_count f).
Proof.
  intros Hparser.
  induction 1 as [| i c file rest f c' calls features c_end Hparse Hchain IH].
  - repeat split.
    + unfold amount_of_scenarios. simpl. lia.
    + intros n f Hn. discriminate Hn.
  - destruct (Hparser _ _ _ _ _ Hparse) as [Hids ->].
    destruct IH as (-> & Hall & Heach).
    pose proof (amount_of_scenarios_nonneg features) as Hnonneg.
    rewrite amount_of_scenarios_cons. repeat split.
    + lia.
    + simpl. rewrite Hids, Hall.
      rewrite seqZ_app by (unfold scenario_count; lia).
      do 2 f_equal. lia.
    + intros [| n] g Hn; simpl in Hn.
      * injection Hn as <-. rewrite Hids. simpl.
        f_equal. unfold amount_of_scenarios. simpl. lia.
      * rewrite (Heach n g Hn). simpl. rewrite amount_of_scenarios_cons.
        f_equal. lia.
Qed.

Lemma parse_loop_total env feature_files :
  (forall featurefile featureid c, exists f c', parse env featurefile featureid c = inr (f, c')) ->
  forall i carried st,
  exists out st',
    for_fold (enumerate_from i feature_files) carried (parse_step env) st = (Normal out, st').
Proof.
  intros Htotal. induction feature_files as [| featurefile rest IH]; intros i [acc c] st.
  - simpl. eauto.
  - cbn [for_fold enumerate_from]. unfold bind. rewrite parse_step_run.
    destruct (Htotal featurefile (i + 1) c) as (f & c' & ->). apply IH.
Qed.

(** C1, as the code has it.  When the files of a list are all parsed, the
    parsers are called in the order of the list: the file at (1-based)
    position [i] with feature id [i], the first with the counter at 0 (the
    number of scenario ids consumed so far, not 1), every later one with the
    counter that the parser before it has left.  For a parser that numbers
    from the counter onwards ([numbers_consecutively]), the scenario ids of
    the file at position [n + 1] are then the range that starts at 1 + the
    number of scenarios of the files before it and is as long as its own
    number of scenarios, and the ids of all files together are 1, ...,
    total, each one once.  With a parser that never raises, all files are
    parsed. *)
Theorem parse_features_numbering
    (env : Env) (feature_files : list string) (st : State)
    (features : list Feature) (st' : State) :
  parse_features env feature_files st = (Normal features, st') ->
  (exists calls c_end,
      parse_chain env 0 0 feature_files calls features c_end
      /\ trace st' = trace st ++ calls
      /\ length calls = length feature_files
      /\ length features = length feature_files
      /\ config st' = config st
      /\ forall n featurefile,
           feature_files !! n = Some featurefile ->
           exists c_n,
             calls !! n = Some (EvParse featurefile (Z.of_nat n + 1) c_n)
             /\ (n = 0%nat -> c_n = 0))
  /\ (numbers_consecutively env ->
      (forall n f,
          features !! n = Some f ->
          scenario_ids f
          = seqZ (1 + amount_of_scenarios (take n features)) (scenario_count f)
          /\ forall id,
               id ∈ scenario_ids f <->
               1 + amount_of_scenarios (take n features) <= id
                 <= amount_of_scenarios (take n features) + scenario_count f)
      /\ concat (map scenario_ids features) = seqZ 1 (amount_of_scenarios features)
      /\ NoDup (concat (map scenario_ids features))
      /\ forall id,
           id ∈ concat (map scenario_ids features) <->
           1 <= id <= amount_of_scenarios features)
  /\ ((forall featurefile featureid c,
         exists f c', parse env featurefile featureid c = inr (f, c')) ->
      forall files st0, exists fs st1, parse_features env files st0 = (Normal fs, st1)).
Proof.
  intros Hrun.
  apply parse_features_chain in Hrun as (calls & c_end & Hchain & Htr & Hcfg).
  destruct (parse_chain_lengths _ _ _ _ _ _ _ Hchain) as [Hcalls Hfeatures].
  split; [| split].
  - exists calls, c_end. repeat split; auto.
    intros n featurefile Hn.
    destruct (parse_chain_call _ _ _ _ _ _ _ Hchain n featurefile Hn) as (c_n & Hcall & H0).
    exists c_n. split; [| exact H0].
    rewrite Hcall. do 2 f_equal.
  - intros Hparser.
    destruct (parse_chain_ranges _ _ _ _ _ _ _ Hparser Hchain) as (_ & Hall & Heach).
    simpl in Hall. split; [| split; [exact Hall | split]].
    + intros n f Hn. rewrite (Heach n f Hn). simpl. split; [reflexivity |].
      intros id. rewrite elem_of_seqZ. unfold scenario_count. lia.
    + rewrite Hall. apply NoDup_seqZ.
    + intros id. rewrite Hall, elem_of_seqZ. lia.
  - intros Htotal files st0. unfold parse_features, bind, enumerate.
    destruct (parse_loop_total env files Htotal 0 ([], 0) st0) as (out & st1 & ->).
    eauto.
Qed.

Lemma demo_parser_numbers_consecutively : numbers_consecutively Demo.env.
Proof.
  intros featurefile featureid c f c' Hparse. simpl in Hparse.
  injection Hparse as <- <-. unfold scenario_ids, scenario_count, Demo.feature_of. simpl.
  rewrite !length_map, length_seq. split; [| reflexivity].
  rewrite map_map. simpl.
  generalize (Demo.scenarios_in featurefile). intros k. revert c.
  induction k as [| k IH]; intros c.
  - reflexivity.
  - rewrite seqZ_cons by lia. simpl. f_equal; try lia.
    rewrite <- seq_shift, map_map.
    replace (Z.pred (Z.of_nat (S k))) with (Z.of_nat k) by lia.
    replace (Z.succ (c + 1)) with (c + 1 + 1) by lia.
    rewrite <- (IH (c + 1)). apply map_ext. intros i. lia.
Qed.

Lemma parse_features_numbering_witness :
  concat (map scenario_ids
            (Demo.feature_of "features/login.feature" 1 0 2
             :: Demo.feature_of "features/admin/users.feature" 2 2 3
             :: Demo.feature_of "x.feature" 3 5 1 :: nil))
  = seqZ 1 6.
Proof.
  refine (proj1 (proj2 (proj1 (proj2
    (parse_features_numbering Demo.env
       ["features/login.feature"; "features/admin/users.feature"; "x.feature"]
       initial
       (Demo.feature_of "features/login.feature" 1 0 2
        :: Demo.feature_of "features/admin/users.feature" 2 2 3
        :: Demo.feature_of "x.feature" 3 5 1 :: nil)
       {| config := ∅;
          trace := [EvParse "features/login.feature" 1 0;
                    EvParse "features/admin/users.feature" 2 2;
                    EvParse "x.feature" 3 5] |}
       _)) demo_parser_numbers_consecutively))).
  vm_compute. reflexivity.
Defined.

(** C1, as the claim has it, fails: the first parser is not started with
    the counter at 1. *)
Lemma first_counter_counterexample :
  ~ (forall env feature_files st features st',
       feature_files <> [] ->
       parse_features env feature_files st = (Normal features, st') ->
       exists featurefile calls, trace st' = trace st ++ EvParse featurefile 1 1 :: calls)
  /\ trace (parse_features Demo.env ["x.feature"] initial).2 = [EvParse "x.feature" 1 0].
Proof.
  split; [| reflexivity].
  intros Hclaim.
  destruct (Hclaim Demo.env ["x.feature"] initial
              [Demo.feature_of "x.feature" 1 0 1]
              {| config := ∅; trace := [EvParse "x.feature" 1 0] |})
    as (featurefile & calls & Htr).
  - discriminate.
  - reflexivity.
  - simpl in Htr. injection Htr as _ Hcounter _. discriminate Hcounter.
Qed.

(** ** Marker resolution *)

Lemma eq_str_true v s : eq_str v s = true <-> v = Arg (AStr s).
Proof.
  destruct v as [[| b | s' | l] | z | l]; simpl; try (split; [discriminate | discriminate]).
  rewrite String.eqb_eq. split; [intros -> | intros [= ->]]; reflexivity.
Qed.

Lemma resolve_marker_run env st v :
  config st !! "marker" = Some v ->
  resolve_marker env st
  = (Normal tt,
     if eq_str v "time.time()"
     then {| config := <["marker" := resolved env v]> (config st);
             trace := trace st ++ [EvTime] |}
     else st).
Proof.
  intros Hmarker. unfold resolve_marker, resolved, bind, getattr. rewrite Hmarker.
  destruct (eq_str v "time.time()"); reflexivity.
Qed.

Lemma resolve_marker_normal env st st' :
  resolve_marker env st = (Normal tt, st') ->
  exists v,
    config st !! "marker" = Some v
    /\ config st' !! "marker" = Some (resolved env v)
    /\ (forall k, k <> "marker" -> config st' !! k = config st !! k).
Proof.
  unfold resolve_marker, bind, getattr.
  destruct (config st !! "marker") as [v |] eqn:Hmarker; [| discriminate].
  intros Hrun. exists v. split; [reflexivity |]. unfold resolved.
  destruct (eq_str v "time.time()"); injection Hrun as <-; simpl.
  - split; [apply lookup_insert_eq |].
    intros k Hk. apply lookup_insert_ne. congruence.
  - auto.
Qed.

Lemma resolved_default env :
  resolved env (Arg (docopt_marker None)) = Int (PyStr.int_of_float (now env)).
Proof. reflexivity. Qed.

Lemma resolved_explicit env (supplied : string) :
  supplied <> "time.time()" ->
  resolved env (Arg (docopt_marker (Some supplied))) = Arg (AStr supplied).
Proof.
  intros Hother. unfold resolved, docopt_marker. simpl.
  destruct (String.eqb_spec supplied "time.time()"); [contradiction | reflexivity].
Qed.

(** *** Where the clock is read *)

Lemma timed_before {A B} (m : M A) (k : A -> M B) :
  steps before_marker nowhere m -> (forall a, timed (k a)) -> timed (bind m k).
Proof.
  intros Hm Hk st. unfold bind.
  destruct (Hm st) as (evs & Htr & Hevs & _).
  destruct (m st) as [[a | v | e] st1]; simpl in *;
    try (exists evs, [], []; rewrite Htr, !app_nil_r; auto; fail).
  destruct (Hk a st1) as (before & times & after & Htr' & Hbefore & Htimes & Hafter).
  exists (evs ++ before), times, after.
  rewrite Htr', Htr, <- !app_assoc. repeat split; auto.
  apply Forall_app. auto.
Qed.

Lemma timed_after {A B} (m : M A) (k : A -> M B) :
  timed m -> (forall a, steps after_marker (fun _ => True) (k a)) -> timed (bind m k).
Proof.
  intros Hm Hk st. unfold bind.
  destruct (Hm st) as (before & times & after & Htr & Hbefore & Htimes & Hafter).
  destruct (m st) as [[a | v | e] st1]; simpl in *;
    try (exists before, times, after; auto; fail).
  destruct (Hk a st1) as (evs & Htr' & Hevs & _).
  exists before, times, (after ++ evs).
  rewrite Htr', Htr, <- !app_assoc. repeat split; auto.
  apply Forall_app. auto.
Qed.

Lemma resolve_marker_timed env : timed (resolve_marker env).
Proof.
  intros st. unfold resolve_marker, bind, getattr.
  destruct (config st !! "marker") as [v |].
  - destruct (eq_str v "time.time()"); simpl.
    + exists [], [EvTime], []. simpl. auto.
    + exists [], [], []. simpl. rewrite app_nil_r. auto.
  - exists [], [], []. simpl. rewrite app_nil_r. auto.
Qed.

Lemma configured_timed env : timed (configured env).
Proof.
  unfold configured.
  apply timed_before.
  { eapply steps_mono; [| | apply discover_steps]; unfold before_marker; auto. }
  intros feature_files. apply timed_before.
  { eapply steps_mono; [| | apply parse_features_steps]; unfold before_marker; auto. }
  intros features. apply timed_before.
  { eapply steps_mono; [| | apply require_features_steps]; unfold before_marker; auto. }
  intros _. apply timed_before.
  { eapply steps_mono; [| | apply load_and_match_steps]; unfold before_marker; tauto. }
  intros features'. apply timed_after; [apply resolve_marker_timed |].
  intros _. apply steps_bind.
  - eapply steps_mono; [| | apply select_scenarios_steps]; simpl; auto. intros ev [].
  - intros _. eapply steps_mono; [| | apply start_runner_steps]; simpl; auto.
Qed.

(** *** What reaches the runner *)

Lemma prelude_steps env :
  steps (fun ev => before_marker ev \/ is_time ev) (only "marker") (prelude env).
Proof.
  unfold prelude.
  apply steps_bind.
  { eapply steps_mono; [| | apply discover_steps]; unfold before_marker; auto.
    intros k []. }
  intros feature_files. apply steps_bind.
  { eapply steps_mono; [| | apply parse_features_steps]; unfold before_marker; auto.
    intros k []. }
  intros features. apply steps_bind.
  { eapply steps_mono; [| | apply require_features_steps]; unfold before_marker; auto.
    intros k []. }
  intros _. apply steps_bind.
  { eapply steps_mono; [| | apply load_and_match_steps]; unfold before_marker.
    - tauto.
    - intros k []. }
  intros features'. apply steps_bind.
  { eapply steps_mono; [| | apply resolve_marker_steps]; auto. }
  intros _. apply steps_ret.
Qed.

(** What has happened when the scenario choice is reached. *)
Lemma prelude_normal env st features st5 :
  prelude env st = (Normal features, st5) ->
  exists feature_files parsed st1 st2 st4,
    discover env st = (Normal feature_files, st1)
    /\ parse_features env feature_files st1 = (Normal parsed, st2)
    /\ parsed <> []
    /\ load_and_match env parsed st2 = (Normal features, st4)
    /\ resolve_marker env st4 = (Normal tt, st5)
    /\ config st4 = config st.
Proof.
  unfold prelude, bind. intros Hrun.
  destruct (discover env st) as [[feature_files | v | e] st1] eqn:Hdiscover;
    try discriminate Hrun.
  destruct (parse_features env feature_files st1) as [[parsed | v | e] st2] eqn:Hparse;
    try discriminate Hrun.
  destruct parsed as [| f parsed]; [discriminate Hrun |].
  simpl in Hrun.
  destruct (load_and_match env (f :: parsed) st2) as [[features' | v | e] st4] eqn:Hload;
    try discriminate Hrun.
  destruct (resolve_marker env st4) as [[[] | v | e] st5'] eqn:Hmarker;
    try discriminate Hrun.
  injection Hrun as <- <-.
  exists feature_files, (f :: parsed), st1, st2, st4.
  repeat split; auto; try discriminate.
  pose proof (steps_nowhere_config _ _ st (discover_steps env)) as H1.
  pose proof (steps_nowhere_config _ _ st1 (parse_features_steps env feature_files)) as H2.
  pose proof (steps_nowhere_config _ _ st2 (load_and_match_steps env (f :: parsed))) as H4.
  rewrite Hdiscover in H1. rewrite Hparse in H2. rewrite Hload in H4. simpl in *.
  congruence.
Qed.

Lemma prelude_marker env st features st5 :
  prelude env st = (Normal features, st5) ->
  exists v, config st !! "marker" = Some v
            /\ config st5 !! "marker" = Some (resolved env v)
            /\ (forall k, k <> "marker" -> config st5 !! k = config st !! k).
Proof.
  intros Hrun.
  apply prelude_normal in Hrun
    as (feature_files & parsed & st1 & st2 & st4 & _ & _ & _ & _ & Hmarker & Hcfg).
  apply resolve_marker_normal in Hmarker as (v & Hv & Hv' & Hframe).
  rewrite Hcfg in Hv, Hframe. eauto.
Qed.

Lemma start_runner_event env features st fs e m :
  EvStart fs e m ∈ trace (start_runner env features st).2 ->
  EvStart fs e m ∈ trace st
  \/ (fs = features /\ config st !! "early_exit" = Some e /\ config st !! "marker" = Some m).
Proof.
  unfold start_runner, runner_start_call, bind, getattr, emit, of_option.
  destruct (config st !! "early_exit") as [e' |]; [| auto].
  destruct (config st !! "marker") as [m' |]; [| auto].
  simpl.
  assert (Hin : EvStart fs e m ∈ trace st ++ [EvStart features e' m'] ->
                EvStart fs e m ∈ trace st
                \/ (fs = features /\ Some e' = Some e /\ Some m' = Some m)).
  { intros Hin. apply elem_of_app in Hin as [Hin | Hin]; [auto |].
    apply list_elem_of_singleton in Hin. injection Hin as -> -> ->. auto. }
  destruct (runner_start env features e' m'); simpl; exact Hin.
Qed.

Lemma no_start_before ev evs :
  Forall (fun ev => before_marker ev \/ is_time ev) evs -> ev ∈ evs -> ~ is_start ev.
Proof.
  intros Hall Hin Hstart. rewrite Forall_forall in Hall.
  destruct ev; try contradiction.
  destruct (Hall _ Hin) as [[H | [H | [H | [H | H]]]] | H]; exact H.
Qed.

(** The runner is started, if at all, with the features that the matcher
    has left, after a scenario choice that went through, and with the
    marker and the early-exit flag of the configuration. *)
Lemma runner_started env arguments fs e m :
  EvStart fs e m ∈ trace (main env arguments initial).2 ->
  exists st5 st6,
    prelude env (configured_state arguments) = (Normal fs, st5)
    /\ select_scenarios (amount_of_scenarios fs) st5 = (Normal tt, st6)
    /\ config st6 !! "early_exit" = Some e
    /\ config st6 !! "marker" = Some m.
Proof.
  rewrite main_configured, configured_prelude.
  change {| config := built_config arguments; trace := trace initial |}
    with (configured_state arguments).
  unfold bind.
  destruct (prelude_steps env (configured_state arguments)) as (evs & Htr & Hevs & _).
  destruct (prelude env (configured_state arguments)) as [[features | v | e0] st5] eqn:Hprelude;
    simpl in *;
    try (intros Hin; rewrite Htr in Hin;
         exfalso; exact (no_start_before _ _ Hevs Hin I)).
  destruct (select_scenarios_steps (amount_of_scenarios features) st5)
    as (evs' & Htr' & Hevs' & _).
  assert (evs' = []) as -> by (destruct evs' as [| ev ?]; [reflexivity | inversion Hevs'; contradiction]).
  rewrite app_nil_r in Htr'.
  destruct (select_scenarios (amount_of_scenarios features) st5)
    as [[[] | v | e0] st6] eqn:Hselect; simpl in *;
    try (intros Hin; rewrite Htr', Htr in Hin;
         exfalso; exact (no_start_before _ _ Hevs Hin I)).
  intros Hin. apply start_runner_event in Hin as [Hin | (-> & He & Hm)].
  - rewrite Htr', Htr in Hin. exfalso. exact (no_start_before _ _ Hevs Hin I).
  - exists st5, st6. auto.
Qed.

Lemma runner_marker env arguments fs e m :
  EvStart fs e m ∈ trace (main env arguments initial).2 ->
  exists v, built_config arguments !! "marker" = Some v /\ m = resolved env v.
Proof.
  intros Hin.
  apply runner_started in Hin as (st5 & st6 & Hprelude & Hselect & _ & Hm).
  apply prelude_marker in Hprelude as (v & Hv & Hv' & _).
  exists v. split; [exact Hv |].
  destruct (select_scenarios_steps (amount_of_scenarios fs) st5) as (evs & _ & _ & Hcfg).
  rewrite Hselect in Hcfg. simpl in Hcfg.
  rewrite Hcfg in Hm by (unfold only; discriminate).
  congruence.
Qed.

(** C5, as the code has it.  In every run the clock is read at most once,
    after every call of the file system, the parsers, the loader and the
    matcher and before the runner is started.  The marker that the runner
    is started with is the marker of the configuration, resolved: the
    integer part of the clock reading when no marker was given, and the
    given string itself when one other than [time.time()] was given. *)
Theorem marker_resolution (env : Env) (arguments : list (string * arg)) :
  (exists before times after,
      trace (main env arguments initial).2 = before ++ times ++ after
      /\ Forall before_marker before
      /\ (times = [] \/ times = [EvTime])
      /\ Forall after_marker after)
  /\ (forall fs e m,
        EvStart fs e m ∈ trace (main env arguments initial).2 ->
        exists v, built_config arguments !! "marker" = Some v /\ m = resolved env v)
  /\ resolved env (Arg (docopt_marker None)) = Int (PyStr.int_of_float (now env))
  /\ (forall supplied : string,
        supplied <> "time.time()" ->
        resolved env (Arg (docopt_marker (Some supplied))) = Arg (AStr supplied))
  /\ (forall st v,
        config st !! "marker" = Some v ->
        resolve_marker env st
        = (Normal tt,
           if eq_str v "time.time()"
           then {| config := <["marker" := resolved env v]> (config st);
                   trace := trace st ++ [EvTime] |}
           else st)).
Proof.
  split.
  { rewrite main_configured.
    destruct (configured_timed env {| config := built_config arguments; trace := trace initial |})
      as (before & times & after & Htr & H). simpl in Htr. eauto. }
  split; [apply runner_marker |].
  split; [apply resolved_default |].
  split; [apply resolved_explicit |].
  apply resolve_marker_run.
Qed.

Lemma marker_resolution_witness :
  trace (main Demo.env (Demo.arguments ["x.feature"] (Some "nightly") None) initial).2
  = [EvExists "x.feature"; EvIsdir "x.feature"; EvParse "x.feature" 1 0;
     EvLoad (AStr "steps"); EvMerge [Demo.feature_of "x.feature" 1 0 1];
     EvStart [Demo.feature_of "x.feature" 1 0 1] (ABool false) (AStr "nightly")]
  /\ exists v,
       built_config (Demo.arguments ["x.feature"] (Some "nightly") None) !! "marker" = Some v
       /\ Arg (AStr "nightly") = resolved Demo.env v.
Proof.
  split; [vm_compute; reflexivity |].
  refine (proj1 (proj2 (marker_resolution Demo.env
                          (Demo.arguments ["x.feature"] (Some "nightly") None)))
            [Demo.feature_of "x.feature" 1 0 1] (ABool false) (AStr "nightly") _).
  vm_compute. apply list_elem_of_In. do 5 right. left. reflexivity.
Defined.

(** C5, as the claim has it, fails: the marker [time.time()], given on the
    command line, does not reach the runner unchanged. *)
Lemma explicit_marker_counterexample :
  ~ (forall env arguments (supplied : string) fs e m,
       built_config arguments !! "marker" = Some (Arg (docopt_marker (Some supplied))) ->
       EvStart fs e m ∈ trace (main env arguments initial).2 ->
       m = Arg (AStr supplied)).
Proof.
  intros Hclaim.
  specialize (Hclaim Demo.env (Demo.arguments ["x.feature"] (Some "time.time()") None)
                "time.time()" [Demo.feature_of "x.feature" 1 0 1] (ABool false) (Int 1700)).
  assert (Hm : Int 1700 = Arg (AStr "time.time()")); [| discriminate Hm].
  apply Hclaim.
  - vm_compute. reflexivity.
  - vm_compute. apply list_elem_of_In. do 6 right. left. reflexivity.
Qed.

(** C6.  The default of [--marker] is the string [time.time()].  A marker
    given as exactly that string is the same dictionary entry as no marker
    at all, and is replaced by the integer part of the clock reading, in the
    configuration and for the runner; any other marker is left as it is,
    and the clock is not read. *)
Theorem sentinel_marker_is_replaced (env : Env) (arguments : list (string * arg)) :
  docopt_marker None = AStr "time.time()"
  /\ docopt_marker (Some "time.time()") = docopt_marker None
  /\ (forall st,
        config st !! "marker" = Some (Arg (docopt_marker (Some "time.time()"))) ->
        resolve_marker env st
        = (Normal tt,
           {| config := <["marker" := Int (PyStr.int_of_float (now env))]> (config st);
              trace := trace st ++ [EvTime] |}))
  /\ (forall st v,
        config st !! "marker" = Some v ->
        v <> Arg (AStr "time.time()") ->
        resolve_marker env st = (Normal tt, st))
  /\ (forall fs e m,
        built_config arguments !! "marker" = Some (Arg (docopt_marker (Some "time.time()"))) ->
        EvStart fs e m ∈ trace (main env arguments initial).2 ->
        m = Int (PyStr.int_of_float (now env))).
Proof.
  split; [reflexivity |]. split; [reflexivity |]. split; [| split].
  - intros st Hmarker. rewrite (resolve_marker_run env st _ Hmarker). reflexivity.
  - intros st v Hmarker Hother. rewrite (resolve_marker_run env st _ Hmarker).
    destruct (eq_str v "time.time()") eqn:Heq; [| reflexivity].
    apply eq_str_true in Heq. contradiction.
  - intros fs e m Hmarker Hin.
    apply runner_marker in Hin as (v & Hv & ->).
    rewrite Hmarker in Hv. injection Hv as <-. reflexivity.
Qed.

Lemma sentinel_marker_is_replaced_witness :
  resolve_marker Demo.env
    (configured_state (Demo.arguments ["x.feature"] (Some "time.time()") None))
  = (Normal tt,
     {| config :=
          <["marker" := Int 1700]>
            (built_config (Demo.arguments ["x.feature"] (Some "time.time()") None));
        trace := [EvTime] |}).
Proof.
  refine (proj1 (proj2 (proj2
            (sentinel_marker_is_replaced Demo.env
               (Demo.arguments ["x.feature"] (Some "time.time()") None))))
            (configured_state (Demo.arguments ["x.feature"] (Some "time.time()") None)) _).
  vm_compute. reflexivity.
Defined.

(** ** The configuration after construction *)

Lemma configured_steps env :
  steps (fun _ => True) (fun k => k = "marker" \/ k = "scenarios") (configured env).
Proof.
  unfold configured.
  apply steps_bind.
  { eapply steps_mono; [| | apply discover_steps]; auto. intros k []. }
  intros feature_files. apply steps_bind.
  { eapply steps_mono; [| | apply parse_features_steps]; auto. intros k []. }
  intros features. apply steps_bind.
  { eapply steps_mono; [| | apply require_features_steps]; auto. intros k []. }
  intros _. apply steps_bind.
  { eapply steps_mono; [| | apply load_and_match_steps]; auto. intros k []. }
  intros features'. apply steps_bind.
  { eapply steps_mono; [| | apply resolve_marker_steps]; unfold only; auto. }
  intros _. apply steps_bind.
  { eapply steps_mono; [| | apply select_scenarios_steps]; unfold only; auto. }
  intros _. eapply steps_mono; [| | apply start_runner_steps]; auto. intros k [].
Qed.

(** C7, as the code has it.  The attribute store is built first, by the one
    call of [setup_config], and the rest of the run starts from it.
    Discovery, parsing, the check for features, loading and matching, and
    the start of the runner write no attribute; marker resolution writes
    [marker] only and the scenario choice writes [scenarios] only.  So every
    attribute other than these two has, when the run ends, the value that
    construction gave it. *)
Theorem config_written_at_marker_and_scenarios_only
    (env : Env) (arguments : list (string * arg)) :
  (forall st,
      main env arguments st
      = configured env {| config := built_config arguments; trace := trace st |})
  /\ (forall st, config (discover env st).2 = config st)
  /\ (forall feature_files st, config (parse_features env feature_files st).2 = config st)
  /\ (forall features st, config (require_features features st).2 = config st)
  /\ (forall features st, config (load_and_match env features st).2 = config st)
  /\ (forall st k, k <> "marker" -> config (resolve_marker env st).2 !! k = config st !! k)
  /\ (forall amount st k,
        k <> "scenarios" -> config (select_scenarios amount st).2 !! k = config st !! k)
  /\ (forall features st, config (start_runner env features st).2 = config st)
  /\ (forall k,
        k <> "marker" -> k <> "scenarios" ->
        config (main env arguments initial).2 !! k = built_config arguments !! k).
Proof.
  split; [intros st; apply main_configured |].
  split; [intros st; eapply steps_nowhere_config, discover_steps |].
  split; [intros feature_files st; eapply steps_nowhere_config, parse_features_steps |].
  split; [intros features st; eapply steps_nowhere_config, require_features_steps |].
  split; [intros features st; eapply steps_nowhere_config, load_and_match_steps |].
  split.
  { intros st k Hk. destruct (resolve_marker_steps env st) as (evs & _ & _ & Hcfg).
    apply Hcfg. exact Hk. }
  split.
  { intros amount st k Hk.
    destruct (select_scenarios_steps amount st) as (evs & _ & _ & Hcfg).
    apply Hcfg. exact Hk. }
  split; [intros features st; eapply steps_nowhere_config, start_runner_steps |].
  intros k Hmarker Hscenarios. rewrite main_configured.
  destruct (configured_steps env {| config := built_config arguments; trace := trace initial |})
    as (evs & _ & _ & Hcfg).
  rewrite Hcfg by tauto. reflexivity.
Qed.

Lemma config_written_at_marker_and_scenarios_only_witness :
  config (main Demo.env (Demo.arguments ["features"] None (Some "3,1")) initial).2
    !! "features"
  = built_config (Demo.arguments ["features"] None (Some "3,1")) !! "features".
Proof.
  refine (proj2 (proj2 (proj2 (proj2 (proj2 (proj2 (proj2 (proj2
            (config_written_at_marker_and_scenarios_only Demo.env
               (Demo.arguments ["features"] None (Some "3,1")))))))))) "features" _ _);
    discriminate.
Defined.

(** C7, as the claim has it, fails: the run replaces the marker that
    construction stored. *)
Lemma config_mutated_counterexample :
  ~ (forall env arguments k,
       config (main env arguments initial).2 !! k = built_config arguments !! k)
  /\ built_config (Demo.arguments ["features"] None (Some "3,1")) !! "marker"
     = Some (Arg (AStr "time.time()"))
  /\ config (main Demo.env (Demo.arguments ["features"] None (Some "3,1")) initial).2
       !! "marker"
     = Some (Int 1700)
  /\ config (main Demo.env (Demo.arguments ["features"] None (Some "3,1")) initial).2
       !! "scenarios"
     = Some (IntList [3; 1]).
Proof.
  assert (Hafter :
    config (main Demo.env (Demo.arguments ["features"] None (Some "3,1")) initial).2
      !! "marker" = Some (Int 1700)) by (vm_compute; reflexivity).
  split; [| split; [vm_compute; reflexivity | split; [exact Hafter | vm_compute; reflexivity]]].
  intros Hclaim.
  rewrite (Hclaim Demo.env (Demo.arguments ["features"] None (Some "3,1")) "marker") in Hafter.
  vm_compute in Hafter. discriminate Hafter.
Qed.

(** ** Scenario choice *)

Lemma comprehension_to_int tokens st :
  comprehension tokens to_int st
  = match ints tokens with
    | inl bad => (Raised (ValueError bad), st)
    | inr ids => (Normal ids, st)
    end.
Proof.
  induction tokens as [| token rest IH]; simpl.
  - reflexivity.
  - unfold bind, to_int at 1.
    destruct (PyStr.int token) as [z |]; simpl; [| reflexivity].
    rewrite IH. destruct (ints rest); reflexivity.
Qed.

Lemma ints_inr tokens ids :
  ints tokens = inr ids <-> Forall2 (fun token id => PyStr.int token = Some id) tokens ids.
Proof.
  revert ids. induction tokens as [| token rest IH]; intros ids; simpl.
  - split.
    + intros [= <-]. constructor.
    + intros H. inversion H. reflexivity.
  - destruct (PyStr.int token) as [z |] eqn:Hint.
    + destruct (ints rest) as [bad | zs].
      * split; [discriminate |]. intros H. inversion H as [| ? id ? ids' ? Hrest]; subst.
        apply IH in Hrest. discriminate Hrest.
      * split.
        -- intros [= <-]. constructor; [exact Hint |]. apply IH. reflexivity.
        -- intros H. inversion H as [| ? id ? ids' Hid Hrest]; subst.
           apply IH in Hrest. injection Hrest as <-. congruence.
    + split; [discriminate |]. intros H. inversion H; subst. congruence.
Qed.

Lemma ints_inl tokens bad :
  ints tokens = inl bad ->
  exists pre post,
    tokens = pre ++ bad :: post
    /\ Forall (fun token => is_Some (PyStr.int token)) pre
    /\ PyStr.int bad = None.
Proof.
  induction tokens as [| token rest IH]; simpl; [discriminate |].
  destruct (PyStr.int token) as [z |] eqn:Hint.
  - destruct (ints rest) as [bad' | zs]; [| discriminate].
    intros [= ->]. destruct (IH eq_refl) as (pre & post & -> & Hpre & Hbad).
    exists (token :: pre), post. repeat split; auto.
  - intros [= <-]. exists [], rest. repeat split; auto.
Qed.

Lemma bounds_loop amount ids st :
  for_each ids
    (fun s => if out_of_range amount s
              then raise (ScenarioNotFoundError s amount)
              else ret tt) st
  = match find (out_of_range amount) ids with
    | Some s => (Raised (ScenarioNotFoundError s amount), st)
    | None => (Normal tt, st)
    end.
Proof.
  induction ids as [| s rest IH]; simpl.
  - reflexivity.
  - unfold bind. destruct (out_of_range amount s); simpl; [reflexivity | exact IH].
Qed.

Lemma out_of_range_spec amount s : out_of_range amount s = false <-> in_range amount s.
Proof. unfold out_of_range, in_range. lia. Qed.

Lemma find_first amount pre v post :
  Forall (in_range amount) pre -> ~ in_range amount v ->
  find (out_of_range amount) (pre ++ v :: post) = Some v.
Proof.
  intros Hpre Hv. induction Hpre as [| s pre Hs Hpre IH]; simpl.
  - destruct (out_of_range amount v) eqn:Hout; [reflexivity |].
    apply out_of_range_spec in Hout. contradiction.
  - apply out_of_range_spec in Hs. rewrite Hs. exact IH.
Qed.

Lemma find_all_in_range amount ids :
  Forall (in_range amount) ids -> find (out_of_range amount) ids = None.
Proof.
  induction 1 as [| s ids Hs Hids IH]; simpl.
  - reflexivity.
  - apply out_of_range_spec in Hs. rewrite Hs. exact IH.
Qed.

Lemma select_scenarios_falsy amount st v :
  config st !! "scenarios" = Some v -> truthy v = false ->
  select_scenarios amount st = (Normal tt, st).
Proof.
  intros Hv Hfalsy. unfold select_scenarios, bind, getattr. rewrite Hv, Hfalsy. reflexivity.
Qed.

Lemma select_scenarios_run amount st s :
  config st !! "scenarios" = Some (Arg (AStr s)) -> s <> "" ->
  select_scenarios amount st
  = match ints (PyStr.split "," s) with
    | inl bad => (Raised (ValueError bad), st)
    | inr ids =>
        match find (out_of_range amount) ids with
        | Some v => (Raised (ScenarioNotFoundError v amount), with_scenarios ids st)
        | None => (Normal tt, with_scenarios ids st)
        end
    end.
Proof.
  intros Hs Hnonempty. unfold select_scenarios, bind at 1, getattr at 1. rewrite Hs.
  assert (Htruthy : truthy (Arg (AStr s)) = true).
  { simpl. destruct (String.eqb_spec s ""); [contradiction | reflexivity]. }
  rewrite Htruthy. unfold bind at 1, getattr. rewrite Hs.
  unfold bind at 1, split_commas, ret at 1.
  unfold bind at 1. rewrite comprehension_to_int.
  destruct (ints (PyStr.split "," s)) as [bad | ids]; [reflexivity |].
  unfold bind, setattr. apply (bounds_loop amount ids (with_scenarios ids st)).
Qed.

Lemma prelude_no_start env st o st5 :
  prelude env st = (o, st5) ->
  (forall fs e m, EvStart fs e m ∉ trace st) ->
  forall fs e m, EvStart fs e m ∉ trace st5.
Proof.
  intros Hrun Hbefore fs e m Hin.
  destruct (prelude_steps env st) as (evs & Htr & Hevs & _).
  rewrite Hrun in Htr. simpl in Htr. rewrite Htr in Hin.
  apply elem_of_app in Hin as [Hin | Hin].
  - exact (Hbefore _ _ _ Hin).
  - exact (no_start_before _ _ Hevs Hin I).
Qed.

Lemma main_after_prelude env arguments features st5 :
  prelude env (configured_state arguments) = (Normal features, st5) ->
  main env arguments initial
  = bind (select_scenarios (amount_of_scenarios features))
      (fun _ => start_runner env features) st5.
Proof.
  intros Hprelude. rewrite main_configured, configured_prelude.
  change {| config := built_config arguments; trace := trace initial |}
    with (configured_state arguments).
  unfold bind at 1. rewrite Hprelude. reflexivity.
Qed.

Lemma prelude_scenarios env arguments features st5 :
  prelude env (configured_state arguments) = (Normal features, st5) ->
  config st5 !! "scenarios" = built_config arguments !! "scenarios".
Proof.
  intros Hprelude. apply prelude_marker in Hprelude as (v & _ & _ & Hframe).
  apply Hframe. discriminate.
Qed.

Lemma first_out_of_range amount ids :
  Forall (in_range amount) ids
  \/ exists pre v post,
       ids = pre ++ v :: post /\ Forall (in_range amount) pre /\ ~ in_range amount v.
Proof.
  induction ids as [| s rest IH].
  - left. constructor.
  - destruct (out_of_range amount s) eqn:Hs.
    + right. exists [], s, rest. repeat split; auto.
      intros Hin. apply out_of_range_spec in Hin. congruence.
    + apply out_of_range_spec in Hs.
      destruct IH as [Hrest | (pre & v & post & -> & Hpre & Hv)].
      * left. constructor; assumption.
      * right. exists (s :: pre), v, post. repeat split; auto.
Qed.

(** C2.  The run has reached the scenario choice with the features
    [features] (as the matcher has left them), and the filter, a non-empty
    string, splits into tokens that are all integers, [ids].  Then every id
    has to lie between 1 and the number of scenarios of [features].  When
    [v] is the first id that does not, [main] raises
    [ScenarioNotFoundError(v, amount)], whatever the other ids are, and the
    runner has not been started; when all ids lie in the range, the runner
    is started.  Whether all ids lie in the range does not depend on their
    order: [3,1] and [1,3] both pass for five scenarios. *)
Theorem scenario_filter_bounds
    (env : Env) (arguments : list (string * arg))
    (features : list Feature) (st5 : State) (s : string) (ids : list Z) :
  prelude env (configured_state arguments) = (Normal features, st5) ->
  built_config arguments !! "scenarios" = Some (Arg (AStr s)) ->
  s <> "" ->
  ints (PyStr.split "," s) = inr ids ->
  (forall pre v post,
      ids = pre ++ v :: post ->
      Forall (in_range (amount_of_scenarios features)) pre ->
      ~ in_range (amount_of_scenarios features) v ->
      main env arguments initial
      = (Raised (ScenarioNotFoundError v (amount_of_scenarios features)),
         with_scenarios ids st5)
      /\ forall fs e m, EvStart fs e m ∉ trace (main env arguments initial).2)
  /\ (Forall (in_range (amount_of_scenarios features)) ids ->
      main env arguments initial = start_runner env features (with_scenarios ids st5))
  /\ (Forall (in_range (amount_of_scenarios features)) ids
      \/ exists pre v post,
           ids = pre ++ v :: post
           /\ Forall (in_range (amount_of_scenarios features)) pre
           /\ ~ in_range (amount_of_scenarios features) v)
  /\ (forall ids',
        ids' ≡ₚ ids ->
        Forall (in_range (amount_of_scenarios features)) ids'
        <-> Forall (in_range (amount_of_scenarios features)) ids)
  /\ (forall st,
        config st !! "scenarios" = Some (Arg (AStr "3,1")) ->
        select_scenarios 5 st = (Normal tt, with_scenarios [3; 1] st))
  /\ (forall st,
        config st !! "scenarios" = Some (Arg (AStr "1,3")) ->
        select_scenarios 5 st = (Normal tt, with_scenarios [1; 3] st)).
Proof.
  intros Hprelude Hfilter Hnonempty Hids.
  assert (Hs : config st5 !! "scenarios" = Some (Arg (AStr s))).
  { rewrite (prelude_scenarios _ _ _ _ Hprelude). exact Hfilter. }
  pose proof (select_scenarios_run (amount_of_scenarios features) st5 s Hs Hnonempty) as Hselect.
  rewrite Hids in Hselect.
  split; [| split; [| split; [| split; [| split]]]].
  - intros pre v post -> Hpre Hv.
    rewrite (find_first _ _ _ post Hpre Hv) in Hselect.
    assert (Hrun : main env arguments initial
      = (Raised (ScenarioNotFoundError v (amount_of_scenarios features)),
         with_scenarios (pre ++ v :: post) st5)).
    { rewrite (main_after_prelude _ _ _ _ Hprelude).
      apply bind_raised. exact Hselect. }
    split; [exact Hrun |].
    rewrite Hrun. simpl.
    apply (prelude_no_start _ _ _ _ Hprelude).
    intros fs e m Hin. inversion Hin.
  - intros Hall. rewrite (find_all_in_range _ _ Hall) in Hselect.
    rewrite (main_after_prelude _ _ _ _ Hprelude).
    unfold bind. rewrite Hselect. reflexivity.
  - apply first_out_of_range.
  - intros ids' Hperm. rewrite Hperm. reflexivity.
  - intros st Hst. rewrite (select_scenarios_run 5 st "3,1" Hst) by discriminate.
    reflexivity.
  - intros st Hst. rewrite (select_scenarios_run 5 st "1,3" Hst) by discriminate.
    reflexivity.
Qed.

Lemma scenario_filter_bounds_witness :
  main Demo.env (Demo.arguments ["features"] (Some "nightly") (Some "3,1")) initial
  = start_runner Demo.env
      [Demo.feature_of "features/login.feature" 1 0 2;
       Demo.feature_of "features/admin/users.feature" 2 2 3]
      (with_scenarios [3; 1]
         (prelude Demo.env
            (configured_state
               (Demo.arguments ["features"] (Some "nightly") (Some "3,1")))).2).
Proof.
  refine (proj1 (proj2
            (scenario_filter_bounds Demo.env
               (Demo.arguments ["features"] (Some "nightly") (Some "3,1"))
               [Demo.feature_of "features/login.feature" 1 0 2;
                Demo.feature_of "features/admin/users.feature" 2 2 3]
               (prelude Demo.env
                  (configured_state
                     (Demo.arguments ["features"] (Some "nightly") (Some "3,1")))).2
               "3,1" [3; 1] _ _ _ _)) _).
  - vm_compute. reflexivity.
  - vm_compute. reflexivity.
  - discriminate.
  - reflexivity.
  - repeat constructor; vm_compute; discriminate.
Defined.




(** * Further properties of [main] and [setup_config] *)

(** ** Blocks without a [return] statement *)

Lemma no_return_here {A} (o : outcome A) :
  (forall v, o <> Returned v) -> no_return (fun st => (o, st)).
Proof. intros Ho st v st' [= H _]. exact (Ho v H). Qed.

Lemma no_return_ret {A} (a : A) : no_return (ret a).
Proof. apply no_return_here. discriminate. Qed.

Lemma no_return_raise {A} (e : exn) : no_return (@raise A e).
Proof. apply no_return_here. discriminate. Qed.

Lemma no_return_emit (ev : event) : no_return (emit ev).
Proof. intros st v st'. discriminate. Qed.

Lemma no_return_getattr (name : string) : no_return (getattr name).
Proof.
  intros st v st'. unfold getattr. destruct (config st !! name); discriminate.
Qed.

Lemma no_return_setattr (name : string) (v : value) : no_return (setattr name v).
Proof. intros st w st'. discriminate. Qed.

Lemma no_return_bind {A B} (m : M A) (k : A -> M B) :
  no_return m -> (forall a, no_return (k a)) -> no_return (bind m k).
Proof.
  intros Hm Hk st v st'. unfold bind.
  destruct (m st) as [[a | w | e] st1] eqn:Hrun.
  - apply Hk.
  - exfalso. exact (Hm _ _ _ Hrun).
  - discriminate.
Qed.

Lemma no_return_of_option (r : option exn) : no_return (of_option r).
Proof. destruct r; [apply no_return_raise | apply no_return_ret]. Qed.

Lemma no_return_of_sum {A} (r : exn + A) : no_return (of_sum r).
Proof. destruct r; [apply no_return_raise | apply no_return_ret]. Qed.

Lemma no_return_for_each {A} (l : list A) (body : A -> M unit) :
  (forall x, no_return (body x)) -> no_return (for_each l body).
Proof.
  intros Hbody. induction l as [| x rest IH]; simpl.
  - apply no_return_ret.
  - apply no_return_bind; auto.
Qed.

Lemma no_return_for_fold {A B} (l : list A) (b : B) (body : B -> A -> M B) :
  (forall b x, no_return (body b x)) -> no_return (for_fold l b body).
Proof.
  intros Hbody. revert b. induction l as [| x rest IH]; intros b; simpl.
  - apply no_return_ret.
  - apply no_return_bind; auto.
Qed.

Lemma no_return_comprehension {A B} (l : list A) (f : A -> M B) :
  (forall x, no_return (f x)) -> no_return (comprehension l f).
Proof.
  intros Hf. induction l as [| x rest IH]; simpl.
  - apply no_return_ret.
  - apply no_return_bind; auto. intros y.
    apply no_return_bind; auto. intros ys. apply no_return_ret.
Qed.

Ltac no_return_step :=
  match goal with
  | |- no_return (bind _ _) => apply no_return_bind
  | |- no_return (ret _) => apply no_return_ret
  | |- no_return (raise _) => apply no_return_raise
  | |- no_return (getattr _) => apply no_return_getattr
  | |- no_return (setattr _ _) => apply no_return_setattr
  | |- no_return (emit _) => apply no_return_emit
  | |- no_return (of_option _) => apply no_return_of_option
  | |- no_return (of_sum _) => apply no_return_of_sum
  | |- no_return (for_each _ _) => apply no_return_for_each
  | |- no_return (for_fold _ _ _) => apply no_return_for_fold
  | |- no_return (comprehension _ _) => apply no_return_comprehension
  | |- no_return (if ?b then _ else _) => destruct b
  | |- no_return (match ?x with _ => _ end) => destruct x
  | |- no_return ((match ?x with _ => _ end) _) => destruct x
  | |- forall _, _ => intro
  | |- no_return _ => progress cbv beta
  end.

Ltac no_return_auto := repeat no_return_step.

Lemma discover_no_return env : no_return (discover env).
Proof.
  unfold discover, discover_step, iterate_paths, os_path_exists, os_path_isdir,
    utils_recursive_glob.
  no_return_auto.
Qed.

Lemma parse_features_no_return env feature_files :
  no_return (parse_features env feature_files).
Proof. unfold parse_features, parse_step, feature_parser. no_return_auto. Qed.

Lemma load_and_match_no_return env features : no_return (load_and_match env features).
Proof. unfold load_and_match, loader_load_all, matcher_merge_steps. no_return_auto. Qed.

Lemma resolve_marker_no_return env : no_return (resolve_marker env).
Proof. unfold resolve_marker, time. no_return_auto. Qed.

Lemma select_scenarios_no_return amount : no_return (select_scenarios amount).
Proof. unfold select_scenarios, split_commas, to_int. no_return_auto. Qed.

Lemma start_runner_no_return env features : no_return (start_runner env features).
Proof. unfold start_runner, runner_start_call. no_return_auto. Qed.

(** ** Discovery, both ways *)

Lemma exists_or_missing env given :
  Forall (fun p => path_exists env p = true) given
  \/ exists p, p ∈ given /\ path_exists env p = false.
Proof.
  induction given as [| q rest [IH | (p & Hin & Hp)]].
  - left. constructor.
  - destruct (path_exists env q) eqn:Hq.
    + left. constructor; assumption.
    + right. exists q. split; [left | exact Hq].
  - right. exists p. split; [right; exact Hin | exact Hp].
Qed.

(** Discovery over a list of paths ends normally exactly when every given
    path exists.  It never returns; when it raises, the exception is
    [FeatureFileNotFoundError] for the first given path that does not exist,
    and the paths before it have been looked at and no path after it. *)
Theorem discover_succeeds_iff_all_exist
    (env : Env) (given : list string) (st : State) :
  config st !! "features" = Some (Arg (AList given)) ->
  (Forall (fun p => path_exists env p = true) given
   <-> exists feature_files st', discover env st = (Normal feature_files, st'))
  /\ (forall e st',
        discover env st = (Raised e, st') ->
        exists pre missing post,
          given = pre ++ missing :: post
          /\ Forall (fun p => path_exists env p = true) pre
          /\ path_exists env missing = false
          /\ e = FeatureFileNotFoundError missing
          /\ st' = {| config := config st;
                      trace := trace st ++ flat_map (discovery_events env) pre
                                 ++ [EvExists missing] |})
  /\ (forall v st', discover env st <> (Returned v, st')).
Proof.
  intros Hfeatures.
  rewrite (discover_list env given st Hfeatures).
  split; [| split].
  - split.
    + intros Hall. rewrite (discover_loop_found env given [] st Hall). eauto.
    + intros (feature_files & st' & Hrun).
      destruct (exists_or_missing env given) as [Hall | Hmissing]; [exact Hall |].
      apply first_missing in Hmissing as (pre & missing & post & -> & Hpre & Hmissing).
      rewrite (discover_loop_missing env pre missing post [] st Hpre Hmissing) in Hrun.
      discriminate Hrun.
  - intros e st' Hrun.
    destruct (exists_or_missing env given) as [Hall | Hmissing].
    + rewrite (discover_loop_found env given [] st Hall) in Hrun. discriminate Hrun.
    + apply first_missing in Hmissing as (pre & missing & post & -> & Hpre & Hmissing).
      rewrite (discover_loop_missing env pre missing post [] st Hpre Hmissing) in Hrun.
      injection Hrun as <- <-.
      exists pre, missing, post. repeat split; auto.
  - rewrite <- (discover_list env given st Hfeatures). apply discover_no_return.
Qed.

Lemma discover_succeeds_iff_all_exist_witness :
  Forall (fun p => path_exists Demo.env p = true) ["features"; "x.txt"]
  <-> exists feature_files st',
        discover Demo.env (configured_state (Demo.arguments ["features"; "x.txt"] None None))
        = (Normal feature_files, st').
Proof.
  refine (proj1 (discover_succeeds_iff_all_exist Demo.env ["features"; "x.txt"]
                   (configured_state (Demo.arguments ["features"; "x.txt"] None None)) _)).
  vm_compute. reflexivity.
Defined.

(** ** A parser that raises *)

Lemma enumerate_from_app {A} (l1 l2 : list A) i :
  enumerate_from i (l1 ++ l2)
  = enumerate_from i l1 ++ enumerate_from (i + Z.of_nat (length l1)) l2.
Proof.
  revert i. induction l1 as [| x rest IH]; intros i; simpl.
  - rewrite Z.add_0_r. reflexivity.
  - rewrite IH. do 3 f_equal. lia.
Qed.

Lemma parse_loop_of_chain env i c feature_files calls features c_end :
  parse_chain env i c feature_files calls features c_end ->
  forall acc st,
    for_fold (enumerate_from i feature_files) (acc, c) (parse_step env) st
    = (Normal (acc ++ features, c_end),
       {| config := config st; trace := trace st ++ calls |}).
Proof.
  induction 1 as [| i c file rest f c' calls features c_end Hparse Hchain IH];
    intros acc st.
  - simpl. rewrite !app_nil_r. destruct st; reflexivity.
  - cbn [for_fold enumerate_from]. unfold bind. rewrite parse_step_run, Hparse.
    rewrite IH. simpl. rewrite <- !app_assoc. reflexivity.
Qed.

Lemma parse_features_failure env pre featurefile post calls features c e st :
  parse_chain env 0 0 pre calls features c ->
  parse env featurefile (Z.of_nat (length pre) + 1) c = inl e ->
  parse_features env (pre ++ featurefile :: post) st
  = (Raised e,
     {| config := config st;
        trace := trace st ++ calls
                   ++ [EvParse featurefile (Z.of_nat (length pre) + 1) c] |}).
Proof.
  intros Hchain Hparse. unfold parse_features, enumerate.
  rewrite enumerate_from_app, Z.add_0_l. cbn [enumerate_from].
  apply bind_raised. rewrite for_fold_app.
  erewrite bind_normal by (apply parse_loop_of_chain; exact Hchain).
  cbn [for_fold]. apply bind_raised.
  rewrite parse_step_run. simpl. rewrite Hparse.
  simpl. rewrite <- app_assoc. reflexivity.
Qed.

Lemma parse_chain_calls env i c feature_files calls features c_end :
  parse_chain env i c feature_files calls features c_end -> Forall is_parse calls.
Proof. induction 1; constructor; [exact I | assumption]. Qed.

(** When the parser of a file raises, [main] raises the same exception at
    once: the files before it have been parsed, in order, no file after it
    is parsed, and neither the loader nor the matcher nor the runner is
    called. *)
Theorem parser_failure_stops_run
    (env : Env) (arguments : list (string * arg))
    (pre post : list string) (featurefile : string) (st1 : State)
    (calls : list event) (features : list Feature) (c : Z) (e : exn) :
  discover env (configured_state arguments) = (Normal (pre ++ featurefile :: post), st1) ->
  parse_chain env 0 0 pre calls features c ->
  parse env featurefile (Z.of_nat (length pre) + 1) c = inl e ->
  main env arguments initial
  = (Raised e,
     {| config := built_config arguments;
        trace := trace st1 ++ calls
                   ++ [EvParse featurefile (Z.of_nat (length pre) + 1) c] |})
  /\ Forall (fun ev => is_fs ev \/ is_parse ev) (trace (main env arguments initial).2)
  /\ length calls = length pre.
Proof.
  intros Hdiscover Hchain Hparse.
  assert (Hcfg : config st1 = built_config arguments).
  { pose proof (steps_nowhere_config is_fs (discover env) (configured_state arguments)
                  (discover_steps env)) as H.
    rewrite Hdiscover in H. exact H. }
  assert (Hfs : Forall is_fs (trace st1)).
  { destruct (discover_steps env (configured_state arguments)) as (evs & Htr & Hevs & _).
    rewrite Hdiscover in Htr. simpl in Htr. rewrite Htr. exact Hevs. }
  pose proof (parse_chain_calls env _ _ _ _ _ _ Hchain) as Hcalls.
  assert (Hrun : main env arguments initial
    = (Raised e,
       {| config := built_config arguments;
          trace := trace st1 ++ calls
                     ++ [EvParse featurefile (Z.of_nat (length pre) + 1) c] |})).
  { rewrite main_configured. unfold configured.
    change {| config := built_config arguments; trace := trace initial |}
      with (configured_state arguments).
    erewrite bind_normal by exact Hdiscover.
    erewrite bind_raised; [reflexivity |].
    rewrite (parse_features_failure env pre featurefile post calls features c e st1
               Hchain Hparse).
    rewrite Hcfg. reflexivity. }
  split; [exact Hrun |]. split.
  - rewrite Hrun. simpl. rewrite !Forall_app. repeat split.
    + eapply Forall_impl; [exact Hfs |]. intros ev Hev. left. exact Hev.
    + eapply Forall_impl; [exact Hcalls |]. intros ev Hev. right. exact Hev.
    + constructor; [right; exact I | constructor].
  - exact (proj1 (parse_chain_lengths _ _ _ _ _ _ _ Hchain)).
Qed.

Lemma parser_failure_stops_run_witness :
  main Faulty.env
    (Demo.arguments ["x.feature"; "broken.feature"; "y.feature"] None None) initial
  = (Raised (CollaboratorError "parser"),
     {| config :=
          built_config
            (Demo.arguments ["x.feature"; "broken.feature"; "y.feature"] None None);
        trace := [EvExists "x.feature"; EvIsdir "x.feature";
                  EvExists "broken.feature"; EvIsdir "broken.feature";
                  EvExists "y.feature"; EvIsdir "y.feature";
                  EvParse "x.feature" 1 0; EvParse "broken.feature" 2 1] |}).
Proof.
  refine (proj1 (parser_failure_stops_run Faulty.env
                   (Demo.arguments ["x.feature"; "broken.feature"; "y.feature"] None None)
                   ["x.feature"] ["y.feature"] "broken.feature"
                   {| config :=
                        built_config
                          (Demo.arguments ["x.feature"; "broken.feature"; "y.feature"]
                             None None);
                      trace := [EvExists "x.feature"; EvIsdir "x.feature";
                                EvExists "broken.feature"; EvIsdir "broken.feature";
                                EvExists "y.feature"; EvIsdir "y.feature"] |}
                   [EvParse "x.feature" 1 0] [Demo.feature_of "x.feature" 1 0 1] 1
                   (CollaboratorError "parser") _ _ _)).
  - vm_compute. reflexivity.
  - eapply chain_cons; [reflexivity | apply chain_nil].
  - reflexivity.
Defined.

(** ** The return value *)

Lemma after_features_no_return env features :
  no_return
    (bind (load_and_match env features)
       (fun features' =>
          resolve_marker env ;;
          select_scenarios (amount_of_scenarios features') ;;
          start_runner env features')).
Proof.
  apply no_return_bind; [apply load_and_match_no_return |]. intros features'.
  apply no_return_bind; [apply resolve_marker_no_return |]. intros _.
  apply no_return_bind; [apply select_scenarios_no_return |]. intros _.
  apply start_runner_no_return.
Qed.

(** [main] ends by a [return] statement exactly when discovery ends with
    no feature file at all, and the value it then returns is 1: it returns
    nothing else that way, whatever the collaborators do.  When a feature
    file was found, [main] raises or falls through. *)
Theorem main_returns_iff_no_feature_file (env : Env) (arguments : list (string * arg)) :
  ((exists v, (main env arguments initial).1 = Returned v)
   <-> exists st1, discover env (configured_state arguments) = (Normal [], st1))
  /\ (forall v, (main env arguments initial).1 = Returned v -> v = Int 1).
Proof.
  assert (Hback : forall v, (main env arguments initial).1 = Returned v ->
            v = Int 1
            /\ exists st1, discover env (configured_state arguments) = (Normal [], st1)).
  { intros v. rewrite main_configured. unfold configured.
    change {| config := built_config arguments; trace := trace initial |}
      with (configured_state arguments).
    unfold bind at 1.
    destruct (discover env (configured_state arguments))
      as [[feature_files | w | e] st1] eqn:Hdiscover.
    - unfold bind at 1.
      destruct (parse_features env feature_files st1)
        as [[features | w | e] st2] eqn:Hparse.
      + destruct features as [| f features].
        * intros Hret. simpl in Hret. injection Hret as <-. split; [reflexivity |].
          apply parse_features_chain in Hparse as (calls & c_end & Hchain & _).
          apply parse_chain_lengths in Hchain as [_ Hlen].
          destruct feature_files; [eauto | discriminate Hlen].
        * unfold bind at 1. simpl. intros Hret. exfalso.
          destruct (bind (load_and_match env (f :: features)) _ st2)
            as [o st'] eqn:Hrest.
          simpl in Hret. subst o.
          exact (after_features_no_return env (f :: features) _ _ _ Hrest).
      + exfalso. exact (parse_features_no_return env feature_files _ _ _ Hparse).
      + discriminate.
    - exfalso. exact (discover_no_return env _ _ _ Hdiscover).
    - discriminate. }
  split; [split |].
  - intros (v & Hv). exact (proj2 (Hback v Hv)).
  - intros (st1 & Hdiscover). exists (Int 1).
    rewrite main_configured. unfold configured.
    change {| config := built_config arguments; trace := trace initial |}
      with (configured_state arguments).
    erewrite bind_normal by exact Hdiscover.
    erewrite bind_normal by apply parse_features_nil.
    reflexivity.
  - intros v Hv. exact (proj1 (Hback v Hv)).
Qed.

(** ** From the loader to the runner *)

Lemma load_and_match_normal env features st fs st' :
  load_and_match env features st = (Normal fs, st') ->
  exists b,
    config st !! "basedir" = Some b
    /\ load_all env b = None
    /\ merge_steps env features = inr fs
    /\ st' = {| config := config st; trace := trace st ++ [EvLoad b; EvMerge features] |}.
Proof.
  unfold load_and_match, loader_load_all, matcher_merge_steps, bind, getattr, emit,
    of_option, of_sum, ret, raise.
  destruct (config st !! "basedir") as [b |] eqn:Hb; [| discriminate]. simpl.
  destruct (load_all env b) as [e |] eqn:Hload; [discriminate |]. simpl.
  destruct (merge_steps env features) as [e | fs'] eqn:Hmerge; [discriminate |].
  intros [= <- <-]. exists b. rewrite <- app_assoc. repeat split; auto.
Qed.

Lemma load_and_match_run env features st b fs :
  config st !! "basedir" = Some b ->
  load_all env b = None ->
  merge_steps env features = inr fs ->
  load_and_match env features st
  = (Normal fs, {| config := config st; trace := trace st ++ [EvLoad b; EvMerge features] |}).
Proof.
  intros Hb Hload Hmerge.
  unfold load_and_match, loader_load_all, matcher_merge_steps, bind, getattr, emit,
    of_option, of_sum, ret.
  rewrite Hb. simpl. rewrite Hload. simpl. rewrite Hmerge, <- app_assoc. reflexivity.
Qed.

Lemma start_runner_run env features st e m :
  config st !! "early_exit" = Some e ->
  config st !! "marker" = Some m ->
  start_runner env features st
  = (runner_outcome (runner_start env features e m),
     {| config := config st; trace := trace st ++ [EvStart features e m] |}).
Proof.
  intros He Hm.
  unfold start_runner, runner_start_call, bind, getattr, emit, of_option, runner_outcome.
  rewrite He, Hm. simpl. destruct (runner_start env features e m); reflexivity.
Qed.

Lemma select_scenarios_trace amount st : trace (select_scenarios amount st).2 = trace st.
Proof.
  destruct (select_scenarios_steps amount st) as (evs & Htr & Hevs & _).
  destruct evs as [| ev evs]; [rewrite app_nil_r in Htr; exact Htr |].
  inversion Hevs; contradiction.
Qed.

Lemma resolve_marker_state env st v st' :
  config st !! "marker" = Some v ->
  resolve_marker env st = (Normal tt, st') ->
  trace st' = trace st ++ clock_reading v.
Proof.
  intros Hv. rewrite (resolve_marker_run env st v Hv). intros [= <-].
  unfold clock_reading. destruct (eq_str v "time.time()"); simpl.
  - reflexivity.
  - rewrite app_nil_r. reflexivity.
Qed.

(** When the runner is started, all of this has happened before: every
    given path existed and discovery ended normally; every feature file was
    parsed, in order, and there was at least one; the loader was called
    once, with the base directory of the configuration, and the matcher
    once, with the parsed features; both ended normally.  The runner gets
    the features that the matcher has left, the early-exit flag of the
    configuration and the resolved marker.  Its start is the last call of
    the run, and [main] raises what the runner raises, or falls through. *)
Theorem started_run_anatomy
    (env : Env) (arguments : list (string * arg))
    (fs : list Feature) (e m : value) :
  EvStart fs e m ∈ trace (main env arguments initial).2 ->
  exists feature_files st1 calls parsed c_end b v,
    discover env (configured_state arguments) = (Normal feature_files, st1)
    /\ parse_chain env 0 0 feature_files calls parsed c_end
    /\ parsed <> []
    /\ built_config arguments !! "basedir" = Some b
    /\ load_all env b = None
    /\ merge_steps env parsed = inr fs
    /\ built_config arguments !! "marker" = Some v
    /\ m = resolved env v
    /\ built_config arguments !! "early_exit" = Some e
    /\ (main env arguments initial).1 = runner_outcome (runner_start env fs e m)
    /\ trace (main env arguments initial).2
       = trace st1 ++ calls ++ [EvLoad b; EvMerge parsed] ++ clock_reading v
           ++ [EvStart fs e m].
Proof.
  intros Hin.
  apply runner_started in Hin as (st5 & st6 & Hprelude & Hselect & He & Hm).
  pose proof (main_after_prelude _ _ _ _ Hprelude) as Hmain.
  pose proof (prelude_marker _ _ _ _ Hprelude) as (v & Hv & Hv' & Hframe).
  apply prelude_normal in Hprelude
    as (feature_files & parsed & st1 & st2 & st4 & Hdiscover & Hparse & Hnonempty
        & Hload & Hmarker & Hcfg4).
  apply parse_features_chain in Hparse as (calls & c_end & Hchain & Htr2 & Hcfg2).
  apply load_and_match_normal in Hload as (b & Hb & Hloaded & Hmerged & ->).
  simpl in Hcfg4, Hmarker.
  assert (Hb' : built_config arguments !! "basedir" = Some b).
  { rewrite <- Hcfg4. exact Hb. }
  assert (Htr5 : trace st5 = (trace st2 ++ [EvLoad b; EvMerge parsed]) ++ clock_reading v).
  { refine (resolve_marker_state env _ v st5 _ Hmarker).
    simpl. rewrite Hcfg4. exact Hv. }
  pose proof (select_scenarios_trace (amount_of_scenarios fs) st5) as Htr6.
  destruct (select_scenarios_steps (amount_of_scenarios fs) st5) as (evs & _ & _ & Hcfg6).
  rewrite Hselect in Htr6, Hcfg6. simpl in Htr6, Hcfg6.
  assert (Hm' : m = resolved env v).
  { rewrite Hcfg6 in Hm by (unfold only; discriminate). congruence. }
  assert (He' : built_config arguments !! "early_exit" = Some e).
  { rewrite Hcfg6 in He by (unfold only; discriminate).
    rewrite Hframe in He by discriminate. exact He. }
  unfold bind in Hmain. rewrite Hselect in Hmain.
  rewrite (start_runner_run env fs st6 e m He Hm) in Hmain.
  exists feature_files, st1, calls, parsed, c_end, b, v.
  rewrite Hmain. simpl. rewrite Htr6, Htr5, Htr2, <- !app_assoc.
  repeat split; auto.
Qed.

Lemma started_run_anatomy_witness :
  exists feature_files st1 calls parsed c_end b v,
    discover Demo.env (configured_state (Demo.arguments ["x.feature"] None None))
    = (Normal feature_files, st1)
    /\ parse_chain Demo.env 0 0 feature_files calls parsed c_end
    /\ parsed <> []
    /\ built_config (Demo.arguments ["x.feature"] None None) !! "basedir" = Some b
    /\ load_all Demo.env b = None
    /\ merge_steps Demo.env parsed = inr [Demo.feature_of "x.feature" 1 0 1]
    /\ built_config (Demo.arguments ["x.feature"] None None) !! "marker" = Some v
    /\ Int 1700 = resolved Demo.env v
    /\ built_config (Demo.arguments ["x.feature"] None None) !! "early_exit"
       = Some (Arg (ABool false))
    /\ (main Demo.env (Demo.arguments ["x.feature"] None None) initial).1
       = runner_outcome
           (runner_start Demo.env [Demo.feature_of "x.feature" 1 0 1] (ABool false) (Int 1700))
    /\ trace (main Demo.env (Demo.arguments ["x.feature"] None None) initial).2
       = trace st1 ++ calls ++ [EvLoad b; EvMerge parsed] ++ clock_reading v
           ++ [EvStart [Demo.feature_of "x.feature" 1 0 1] (ABool false) (Int 1700)].
Proof.
  refine (started_run_anatomy Demo.env (Demo.arguments ["x.feature"] None None)
            [Demo.feature_of "x.feature" 1 0 1] (ABool false) (Int 1700) _).
  vm_compute. apply list_elem_of_In. do 6 right. left. reflexivity.
Defined.

Lemma parse_features_of_chain env feature_files calls features c_end st :
  parse_chain env 0 0 feature_files calls features c_end ->
  parse_features env feature_files st
  = (Normal features, {| config := config st; trace := trace st ++ calls |}).
Proof.
  intros Hchain. unfold parse_features, enumerate.
  erewrite bind_normal by (apply parse_loop_of_chain; exact Hchain).
  reflexivity.
Qed.

(** A run without a scenario filter goes through to the runner when
    nothing stands in its way: every given path exists, at least one
    feature file is found, every parser, the loader and the matcher end
    normally.  The calls are then, in this order, the ones of discovery,
    one parser call per file, the loader, the matcher, the clock when the
    marker is the default, and the runner; only [marker] may have changed
    in the configuration; [main] raises what the runner raises, or falls
    through. *)
Theorem unfiltered_run_reaches_runner
    (env : Env) (arguments : list (string * arg))
    (given : list string) (calls : list event) (parsed fs : list Feature)
    (c_end : Z) (b v sc e : value) :
  built_config arguments !! "features" = Some (Arg (AList given)) ->
  Forall (fun p => path_exists env p = true) given ->
  flat_map (expansion env) given <> [] ->
  parse_chain env 0 0 (flat_map (expansion env) given) calls parsed c_end ->
  built_config arguments !! "basedir" = Some b ->
  load_all env b = None ->
  merge_steps env parsed = inr fs ->
  built_config arguments !! "marker" = Some v ->
  built_config arguments !! "scenarios" = Some sc ->
  truthy sc = false ->
  built_config arguments !! "early_exit" = Some e ->
  main env arguments initial
  = (runner_outcome (runner_start env fs e (resolved env v)),
     {| config := if eq_str v "time.time()"
                  then <["marker" := resolved env v]> (built_config arguments)
                  else built_config arguments;
        trace := flat_map (discovery_events env) given ++ calls
                   ++ [EvLoad b; EvMerge parsed] ++ clock_reading v
                   ++ [EvStart fs e (resolved env v)] |}).
Proof.
  intros Hfeatures Hall Hfiles Hchain Hb Hload Hmerge Hv Hsc Hfalsy He.
  assert (Hparsed : exists f rest, parsed = f :: rest).
  { apply parse_chain_lengths in Hchain as [_ Hlen].
    destruct parsed as [| f rest]; [| eauto].
    destruct (flat_map (expansion env) given); [contradiction | discriminate Hlen]. }
  destruct Hparsed as (f & rest & ->).
  rewrite main_configured. unfold configured.
  erewrite bind_normal;
    [| rewrite discover_list with (given := given) by exact Hfeatures;
       apply discover_loop_found; exact Hall].
  erewrite bind_normal by (eapply parse_features_of_chain; exact Hchain).
  erewrite bind_normal by reflexivity.
  erewrite bind_normal by (apply load_and_match_run; eauto).
  erewrite bind_normal by (apply resolve_marker_run; exact Hv).
  unfold clock_reading, resolved.
  destruct (eq_str v "time.time()") eqn:Hsentinel.
  - erewrite bind_normal;
      [| apply select_scenarios_falsy with (v := sc); [| exact Hfalsy];
         simpl; rewrite lookup_insert_ne by discriminate; exact Hsc].
    erewrite start_runner_run;
      [| simpl; rewrite lookup_insert_ne by discriminate; exact He
       | simpl; apply lookup_insert_eq ].
    simpl. rewrite <- !app_assoc. reflexivity.
  - erewrite bind_normal by (apply select_scenarios_falsy with (v := sc); eauto).
    erewrite start_runner_run by eauto.
    simpl. rewrite <- !app_assoc. reflexivity.
Qed.

Lemma unfiltered_run_reaches_runner_witness :
  main Faulty.env
    [ ("--basedir", AStr "steps"); ("--early-exit", ABool true);
      ("--marker", docopt_marker None); ("--scenarios", ANone);
      ("<features>", AList ["features"]) ]
    initial
  = (Raised (CollaboratorError "runner"),
     {| config :=
          <["marker" := Int 1700]>
            (built_config
               [ ("--basedir", AStr "steps"); ("--early-exit", ABool true);
                 ("--marker", docopt_marker None); ("--scenarios", ANone);
                 ("<features>", AList ["features"]) ]);
        trace :=
          [EvExists "features"; EvIsdir "features"; EvGlob "features" "*.feature";
           EvParse "features/login.feature" 1 0;
           EvParse "features/admin/users.feature" 2 2;
           EvLoad (AStr "steps");
           EvMerge [Demo.feature_of "features/login.feature" 1 0 2;
                    Demo.feature_of "features/admin/users.feature" 2 2 3];
           EvTime;
           EvStart [Demo.feature_of "features/login.feature" 1 0 2;
                    Demo.feature_of "features/admin/users.feature" 2 2 3]
             (ABool true) (Int 1700)] |}).
Proof.
  refine (unfiltered_run_reaches_runner Faulty.env
            [ ("--basedir", AStr "steps"); ("--early-exit", ABool true);
              ("--marker", docopt_marker None); ("--scenarios", ANone);
              ("<features>", AList ["features"]) ]
            ["features"]
            [EvParse "features/login.feature" 1 0;
             EvParse "features/admin/users.feature" 2 2]
            [Demo.feature_of "features/login.feature" 1 0 2;
             Demo.feature_of "features/admin/users.feature" 2 2 3]
            [Demo.feature_of "features/login.feature" 1 0 2;
             Demo.feature_of "features/admin/users.feature" 2 2 3]
            5 (AStr "steps") (AStr "time.time()") ANone (ABool true)
            _ _ _ _ _ _ _ _ _ _ _).
  - vm_compute. reflexivity.
  - repeat constructor.
  - vm_compute. discriminate.
  - eapply chain_cons; [reflexivity |].
    eapply chain_cons; [reflexivity |]. apply chain_nil.
  - vm_compute. reflexivity.
  - reflexivity.
  - reflexivity.
  - vm_compute. reflexivity.
  - vm_compute. reflexivity.
  - reflexivity.
  - vm_compute. reflexivity.
Defined.

(** ** The names that [setup_config] makes *)

Lemma occurs_append c s1 s2 : occurs c (s1 +:+ s2) = occurs c s1 || occurs c s2.
Proof.
  induction s1 as [| a rest IH]; simpl.
  - reflexivity.
  - rewrite IH, orb_assoc. reflexivity.
Qed.

Lemma prefix_head c old' a rest :
  String.prefix (String c old') (String a rest) = true -> a = c.
Proof.
  simpl. destruct (ascii_dec c a) as [-> | Hne]; [reflexivity | discriminate].
Qed.

Lemma prefix_single c a rest :
  String.prefix (String c EmptyString) (String a rest) = Ascii.eqb a c.
Proof.
  simpl. destruct (ascii_dec c a) as [-> | Hne].
  - rewrite Ascii.eqb_refl. destruct rest; reflexivity.
  - symmetry. apply Ascii.eqb_neq. congruence.
Qed.

(** Nothing is replaced in a string in which the first character of [old]
    does not occur. *)
Lemma replace_from_absent c old' new s :
  occurs c s = false -> PyStr.replace_from (String c old') new 0 s = s.
Proof.
  induction s as [| a rest IH]; simpl; [reflexivity |].
  intros Hocc. apply orb_false_iff in Hocc as [Ha Hrest].
  destruct (ascii_dec c a) as [-> | Hne].
  - rewrite Ascii.eqb_refl in Ha. discriminate Ha.
  - rewrite (IH Hrest). reflexivity.
Qed.

(** Replacing a character removes it, unless the replacement brings it
    back. *)
Lemma replace_from_single_removes c new s :
  occurs c new = false ->
  occurs c (PyStr.replace_from (String c EmptyString) new 0 s) = false.
Proof.
  intros Hnew. induction s as [| a rest IH]; [reflexivity |].
  cbn [PyStr.replace_from]. rewrite prefix_single.
  destruct (Ascii.eqb a c) eqn:Hac.
  - simpl. rewrite occurs_append, Hnew. exact IH.
  - simpl. rewrite Hac. exact IH.
Qed.

(** Replacing a character brings in no character that is neither in the
    string nor in the replacement. *)
Lemma replace_from_single_keeps_out c x new s :
  occurs x new = false -> occurs x s = false ->
  occurs x (PyStr.replace_from (String c EmptyString) new 0 s) = false.
Proof.
  intros Hnew. induction s as [| a rest IH]; [reflexivity |].
  intros Hocc. simpl in Hocc. apply orb_false_iff in Hocc as [Ha Hrest].
  cbn [PyStr.replace_from]. rewrite prefix_single.
  destruct (Ascii.eqb a c) eqn:Hac.
  - simpl. rewrite occurs_append, Hnew. exact (IH Hrest).
  - simpl. rewrite Ha. exact (IH Hrest).
Qed.

Lemma config_key_plain key : plain_key (config_key key).
Proof.
  unfold plain_key, config_key, PyStr.replace.
  set (s1 := PyStr.replace_from "--" "" 0 key).
  assert (H2 : occurs "-" (PyStr.replace_from "-" "_" 0 s1) = false)
    by (apply replace_from_single_removes; reflexivity).
  set (s2 := PyStr.replace_from "-" "_" 0 s1) in *.
  assert (H3 : occurs "<" (PyStr.replace_from "<" "" 0 s2) = false)
    by (apply replace_from_single_removes; reflexivity).
  assert (H3' : occurs "-" (PyStr.replace_from "<" "" 0 s2) = false)
    by (apply replace_from_single_keeps_out; [reflexivity | exact H2]).
  set (s3 := PyStr.replace_from "<" "" 0 s2) in *.
  repeat split.
  - apply replace_from_single_keeps_out; [reflexivity | exact H3'].
  - apply replace_from_single_keeps_out; [reflexivity | exact H3].
  - apply replace_from_single_removes. reflexivity.
Qed.

Lemma config_key_of_plain key : plain_key key -> config_key key = key.
Proof.
  intros (Hdash & Hlt & Hgt). unfold config_key, PyStr.replace.
  rewrite (replace_from_absent "-" "-" "" key Hdash).
  rewrite (replace_from_absent "-" "" "_" key Hdash).
  rewrite (replace_from_absent "<" "" "" key Hlt).
  apply (replace_from_absent ">" "" "" key Hgt).
Qed.

(** The attribute name that [setup_config] makes of a key holds none of
    the characters [-], [<] and [>]; a key without these characters is its
    own attribute name; so the name of a name is the name itself. *)
Theorem config_key_shape (key : string) :
  occurs "-" (config_key key) = false
  /\ occurs "<" (config_key key) = false
  /\ occurs ">" (config_key key) = false
  /\ (plain_key key -> config_key key = key)
  /\ config_key (config_key key) = config_key key.
Proof.
  destruct (config_key_plain key) as (Hdash & Hlt & Hgt).
  repeat split; auto.
  - apply config_key_of_plain.
  - apply config_key_of_plain, config_key_plain.
Qed.

Lemma config_key_shape_witness : config_key "early_exit" = "early_exit".
Proof.
  refine (proj1 (proj2 (proj2 (proj2 (config_key_shape "early_exit")))) _).
  repeat split.
Defined.

(** ** The order of the items *)




(** ** Empty entries of the filter *)

Lemma split_nonempty sep s : PyStr.split sep s <> [].
Proof.
  destruct s as [| c rest]; simpl; [discriminate |].
  destruct (Ascii.eqb c sep); [discriminate |].
  destruct (PyStr.split sep rest); discriminate.
Qed.

(** Splitting at a separator: the tokens of the part before it followed by
    the tokens of the part after it. *)
Lemma split_at_separator sep a b :
  PyStr.split sep (a +:+ String sep b) = PyStr.split sep a ++ PyStr.split sep b.
Proof.
  induction a as [| c rest IH]; simpl.
  - rewrite Ascii.eqb_refl. reflexivity.
  - destruct (Ascii.eqb c sep); [rewrite IH; reflexivity |].
    rewrite IH.
    pose proof (split_nonempty sep rest) as Hne.
    destruct (PyStr.split sep rest) as [| tok toks]; [contradiction | reflexivity].
Qed.

Lemma ints_rejects tokens token :
  token ∈ tokens -> PyStr.int token = None ->
  exists bad, ints tokens = inl bad /\ PyStr.int bad = None.
Proof.
  intros Hin Hnone.
  destruct (ints tokens) as [bad | ids] eqn:Hints.
  - exists bad. split; [reflexivity |].
    apply ints_inl in Hints as (pre & post & _ & _ & Hbad). exact Hbad.
  - exfalso. apply ints_inr in Hints.
    apply list_elem_of_lookup in Hin as (i & Hi).
    destruct (Forall2_lookup_l _ _ _ _ _ Hints Hi) as (id & _ & Hid).
    congruence.
Qed.

(** A non-empty filter with an empty entry is turned down.  When the
    string starts or ends with a comma or holds two commas in a row, one of
    its tokens is empty, and the scenario choice raises [ValueError] (for
    the first token that is no integer) without storing anything. *)
Theorem filter_with_empty_entry_is_rejected (amount : Z) (st : State) (s : string) :
  config st !! "scenarios" = Some (Arg (AStr s)) ->
  s <> "" ->
  "" ∈ PyStr.split "," s ->
  (exists bad,
      select_scenarios amount st = (Raised (ValueError bad), st)
      /\ PyStr.int bad = None)
  /\ (forall a, "" ∈ PyStr.split "," (a +:+ ","))
  /\ (forall a, "" ∈ PyStr.split "," ("," +:+ a))
  /\ (forall a b, "" ∈ PyStr.split "," (a +:+ ",," +:+ b)).
Proof.
  intros Hs Hnonempty Hempty. split; [| split; [| split]].
  - destruct (ints_rejects _ "" Hempty eq_refl) as (bad & Hbad & Hnone).
    exists bad. split; [| exact Hnone].
    rewrite (select_scenarios_run amount st s Hs Hnonempty), Hbad. reflexivity.
  - intros a. rewrite (split_at_separator "," a "").
    apply elem_of_app. right. simpl. left.
  - intros a. change ("," +:+ a) with ("" +:+ String "," a).
    rewrite (split_at_separator "," "" a). simpl. left.
  - intros a b. change (a +:+ ",," +:+ b) with (a +:+ String "," ("" +:+ String "," b)).
    rewrite (split_at_separator "," a), (split_at_separator "," "" b).
    apply elem_of_app. right. simpl. left.
Qed.

Lemma filter_with_empty_entry_is_rejected_witness :
  exists bad,
    select_scenarios 5
      (configured_state (Demo.arguments ["features"] None (Some "1,2,")))
    = (Raised (ValueError bad),
       configured_state (Demo.arguments ["features"] None (Some "1,2,")))
    /\ PyStr.int bad = None.
Proof.
  refine (proj1 (filter_with_empty_entry_is_rejected 5
                   (configured_state (Demo.arguments ["features"] None (Some "1,2,")))
                   "1,2," _ _ _)).
  - vm_compute. reflexivity.
  - discriminate.
  - vm_compute. apply list_elem_of_In. do 2 right. left. reflexivity.
Defined.

(** ** What the runner can rely on *)





(** ** A loader or a matcher that raises *)

Lemma load_and_match_loader_fails env features st b x :
  config st !! "basedir" = Some b ->
  load_all env b = Some x ->
  load_and_match env features st
  = (Raised x, {| config := config st; trace := trace st ++ [EvLoad b] |}).
Proof.
  intros Hb Hload.
  unfold load_and_match, loader_load_all, bind, getattr, emit, of_option, raise.
  rewrite Hb. simpl. rewrite Hload. reflexivity.
Qed.

Lemma load_and_match_matcher_fails env features st b x :
  config st !! "basedir" = Some b ->
  load_all env b = None ->
  merge_steps env features = inl x ->
  load_and_match env features st
  = (Raised x,
     {| config := config st; trace := trace st ++ [EvLoad b; EvMerge features] |}).
Proof.
  intros Hb Hload Hmerge.
  unfold load_and_match, loader_load_all, matcher_merge_steps, bind, getattr, emit,
    of_option, of_sum, ret, raise.
  rewrite Hb. simpl. rewrite Hload. simpl. rewrite Hmerge, <- app_assoc. reflexivity.
Qed.

(** When the files have been found and parsed, a loader that raises ends
    the run with its exception before the matcher is called, and a matcher
    that raises ends it before the clock is read: in both cases the
    configuration is as [setup_config] built it, the filter has not been
    looked at and the runner is not started. *)
Theorem loader_or_matcher_failure_stops_run
    (env : Env) (arguments : list (string * arg))
    (feature_files : list string) (st1 : State)
    (calls : list event) (parsed : list Feature) (c_end : Z) (b : value) (x : exn) :
  discover env (configured_state arguments) = (Normal feature_files, st1) ->
  feature_files <> [] ->
  parse_chain env 0 0 feature_files calls parsed c_end ->
  built_config arguments !! "basedir" = Some b ->
  (load_all env b = Some x ->
   main env arguments initial
   = (Raised x,
      {| config := built_config arguments;
         trace := trace st1 ++ calls ++ [EvLoad b] |}))
  /\ (load_all env b = None ->
      merge_steps env parsed = inl x ->
      main env arguments initial
      = (Raised x,
         {| config := built_config arguments;
            trace := trace st1 ++ calls ++ [EvLoad b; EvMerge parsed] |})).
Proof.
  intros Hdiscover Hfiles Hchain Hb.
  assert (Hcfg : config st1 = built_config arguments).
  { pose proof (steps_nowhere_config is_fs (discover env) (configured_state arguments)
                  (discover_steps env)) as H.
    rewrite Hdiscover in H. exact H. }
  assert (Hparsed : exists f rest, parsed = f :: rest).
  { apply parse_chain_lengths in Hchain as [_ Hlen].
    destruct parsed as [| f rest]; [| eauto].
    destruct feature_files; [contradiction | discriminate Hlen]. }
  destruct Hparsed as (f & rest & ->).
  assert (Hstart : forall o st',
            load_and_match env (f :: rest)
              {| config := config st1; trace := trace st1 ++ calls |} = (Raised o, st') ->
            main env arguments initial = (Raised o, st')).
  { intros o st' Hload. rewrite main_configured. unfold configured.
    change {| config := built_config arguments; trace := trace initial |}
      with (configured_state arguments).
    erewrite bind_normal by exact Hdiscover.
    erewrite bind_normal by (eapply parse_features_of_chain; exact Hchain).
    erewrite bind_normal by reflexivity.
    apply bind_raised. exact Hload. }
  assert (Hb2 : config {| config := config st1; trace := trace st1 ++ calls |}
                  !! "basedir" = Some b) by (simpl; rewrite Hcfg; exact Hb).
  split.
  - intros Hload.
    rewrite (Hstart x _ (load_and_match_loader_fails env (f :: rest) _ b x Hb2 Hload)).
    simpl. rewrite Hcfg, <- app_assoc. reflexivity.
  - intros Hload Hmerge.
    rewrite (Hstart x _ (load_and_match_matcher_fails env (f :: rest) _ b x
                           Hb2 Hload Hmerge)).
    simpl. rewrite Hcfg, <- app_assoc. reflexivity.
Qed.

Lemma loader_or_matcher_failure_stops_run_witness :
  main Faulty.env
    [ ("--basedir", AStr "nowhere"); ("--early-exit", ABool false);
      ("--marker", docopt_marker None); ("--scenarios", ANone);
      ("<features>", AList ["x.feature"]) ]
    initial
  = (Raised (CollaboratorError "loader"),
     {| config :=
          built_config
            [ ("--basedir", AStr "nowhere"); ("--early-exit", ABool false);
              ("--marker", docopt_marker None); ("--scenarios", ANone);
              ("<features>", AList ["x.feature"]) ];
        trace := [EvExists "x.feature"; EvIsdir "x.feature"; EvParse "x.feature" 1 0;
                  EvLoad (AStr "nowhere")] |}).
Proof.
  refine (proj1 (loader_or_matcher_failure_stops_run Faulty.env
                   [ ("--basedir", AStr "nowhere"); ("--early-exit", ABool false);
                     ("--marker", docopt_marker None); ("--scenarios", ANone);
                     ("<features>", AList ["x.feature"]) ]
                   ["x.feature"]
                   {| config :=
                        built_config
                          [ ("--basedir", AStr "nowhere"); ("--early-exit", ABool false);
                            ("--marker", docopt_marker None); ("--scenarios", ANone);
                            ("<features>", AList ["x.feature"]) ];
                      trace := [EvExists "x.feature"; EvIsdir "x.feature"] |}
                   [EvParse "x.feature" 1 0] [Demo.feature_of "x.feature" 1 0 1] 1
                   (AStr "nowhere") (CollaboratorError "loader") _ _ _ _) _).
  - vm_compute. reflexivity.
  - discriminate.
  - eapply chain_cons; [reflexivity | apply chain_nil].
  - vm_compute. reflexivity.
  - reflexivity.
Defined.

(** ** A second configuration *)



(** ** The order of the calls *)

Lemma same_rank_sorted r evs :
  (r <= 1)%nat -> Forall (fun ev => rank ev = r) evs -> StronglySorted follows evs.
Proof.
  intros Hr. induction 1 as [| ev evs Hev Hevs IH]; constructor; [exact IH |].
  eapply Forall_impl; [exact Hevs |]. intros ev' Hev'.
  right. split; [congruence | lia].
Qed.

Lemma ranked_of_steps {A} (P : event -> Prop) (K : string -> Prop) (m : M A) r :
  (r <= 1)%nat -> (forall ev, P ev -> rank ev = r) -> steps P K m -> ranked r r m.
Proof.
  intros Hr HP Hm st. destruct (Hm st) as (evs & Htr & Hevs & _).
  exists evs. split; [exact Htr |].
  assert (Hrank : Forall (fun ev => rank ev = r) evs).
  { eapply Forall_impl; [exact Hevs | exact HP]. }
  split; [exact (same_rank_sorted r evs Hr Hrank) |].
  eapply Forall_impl; [exact Hrank |]. simpl. intros ev ->. lia.
Qed.

Lemma ranked_bind {A B} (m : M A) (k : A -> M B) lo1 hi1 lo2 hi2 :
  ranked lo1 hi1 m -> (forall a, ranked lo2 hi2 (k a)) ->
  (hi1 < lo2)%nat -> (lo1 <= lo2)%nat -> (hi1 <= hi2)%nat ->
  ranked lo1 hi2 (bind m k).
Proof.
  intros Hm Hk Hlt Hlo Hhi st. unfold bind.
  destruct (Hm st) as (evs & Htr & Hsorted & Hevs).
  assert (Hweak : Forall (fun ev => lo1 <= rank ev <= hi2)%nat evs).
  { eapply Forall_impl; [exact Hevs |]. simpl. intros ev. lia. }
  destruct (m st) as [[a | v | e] st1]; simpl in *;
    try (exists evs; auto; fail).
  destruct (Hk a st1) as (evs' & Htr' & Hsorted' & Hevs').
  exists (evs ++ evs'). rewrite Htr', Htr, app_assoc.
  split; [reflexivity |]. split.
  - apply StronglySorted_app_2; auto.
    intros x1 x2 H1 H2. left.
    rewrite Forall_forall in Hevs, Hevs'.
    specialize (Hevs _ H1). specialize (Hevs' _ H2). simpl in *. lia.
  - apply Forall_app. split; [exact Hweak |].
    eapply Forall_impl; [exact Hevs' |]. simpl. intros ev. lia.
Qed.

Lemma ranked_nothing {A} (m : M A) lo hi :
  (forall st, trace (m st).2 = trace st) -> ranked lo hi m.
Proof.
  intros Hm st. exists []. rewrite app_nil_r. repeat split; auto. constructor.
Qed.

Lemma ranked_at_most_one {A} (m : M A) (r : nat) :
  (forall st, trace (m st).2 = trace st
              \/ exists ev, rank ev = r /\ trace (m st).2 = trace st ++ [ev]) ->
  ranked r r m.
Proof.
  intros Hm st. destruct (Hm st) as [Htr | (ev & Hrank & Htr)].
  - exists []. rewrite app_nil_r. repeat split; auto. constructor.
  - exists [ev]. split; [exact Htr |]. split.
    + repeat constructor.
    + constructor; [lia | constructor].
Qed.

Lemma require_features_ranked features : ranked 2 2 (require_features features).
Proof.
  apply ranked_at_most_one. intros st. destruct features; simpl; [| auto].
  right. exists (EvPrint "Error: no features given"). split; reflexivity.
Qed.

Lemma loader_ranked env basedir : ranked 3 3 (loader_load_all env basedir).
Proof.
  apply ranked_at_most_one. intros st. right. exists (EvLoad basedir).
  split; [reflexivity |].
  unfold loader_load_all, bind, emit, of_option. simpl.
  destruct (load_all env basedir); reflexivity.
Qed.

Lemma matcher_ranked env features : ranked 4 4 (matcher_merge_steps env features).
Proof.
  apply ranked_at_most_one. intros st. right. exists (EvMerge features).
  split; [reflexivity |].
  unfold matcher_merge_steps, bind, emit, of_sum. simpl.
  destruct (merge_steps env features); reflexivity.
Qed.

Lemma getattr_trace name st : trace (getattr name st).2 = trace st.
Proof. unfold getattr. destruct (config st !! name); reflexivity. Qed.

Lemma load_and_match_ranked env features : ranked 3 4 (load_and_match env features).
Proof.
  unfold load_and_match.
  intros st. unfold bind at 1.
  pose proof (getattr_trace "basedir" st) as Hget.
  destruct (getattr "basedir" st) as [[b | v | e] st0]; simpl in Hget;
    try (exists []; simpl; rewrite app_nil_r; repeat split; auto; constructor).
  rewrite <- Hget.
  apply (ranked_bind (loader_load_all env b) (fun _ => matcher_merge_steps env features)
           3 3 4 4); try lia.
  - apply loader_ranked.
  - intros _. apply matcher_ranked.
Qed.

Lemma resolve_marker_ranked env : ranked 5 5 (resolve_marker env).
Proof.
  apply ranked_at_most_one. intros st. unfold resolve_marker, bind, getattr.
  destruct (config st !! "marker") as [v |]; [| auto].
  destruct (eq_str v "time.time()"); simpl; [| auto].
  right. exists EvTime. split; reflexivity.
Qed.

Lemma start_runner_ranked env features : ranked 6 6 (start_runner env features).
Proof.
  apply ranked_at_most_one. intros st.
  unfold start_runner, runner_start_call, bind, getattr, emit, of_option.
  destruct (config st !! "early_exit") as [e |]; [| auto].
  destruct (config st !! "marker") as [m |]; [| auto].
  simpl. right. exists (EvStart features e m). split; [reflexivity |].
  destruct (runner_start env features e m); reflexivity.
Qed.

Lemma ranked_weaken {A} (m : M A) lo hi lo' hi' :
  (lo' <= lo)%nat -> (hi <= hi')%nat -> ranked lo hi m -> ranked lo' hi' m.
Proof.
  intros Hlo Hhi Hm st. destruct (Hm st) as (evs & Htr & Hsorted & Hevs).
  exists evs. repeat split; auto.
  eapply Forall_impl; [exact Hevs |]. simpl. intros ev. lia.
Qed.

Lemma configured_ranked env : ranked 0 6 (configured env).
Proof.
  unfold configured.
  apply (ranked_bind _ _ 0 0 1 6); try lia.
  { apply (ranked_of_steps is_fs nowhere); [lia | | apply discover_steps].
    intros []; simpl; tauto. }
  intros feature_files. apply (ranked_bind _ _ 1 1 2 6); try lia.
  { apply (ranked_of_steps is_parse nowhere); [lia | | apply parse_features_steps].
    intros []; simpl; tauto. }
  intros features. apply (ranked_bind _ _ 2 2 3 6); try lia.
  { apply require_features_ranked. }
  intros _. apply (ranked_bind _ _ 3 4 5 6); try lia.
  { apply load_and_match_ranked. }
  intros features'. apply (ranked_bind _ _ 5 5 6 6); try lia.
  { apply resolve_marker_ranked. }
  intros _. intros st. unfold bind.
  pose proof (select_scenarios_trace (amount_of_scenarios features') st) as Hsel.
  destruct (select_scenarios (amount_of_scenarios features') st) as [[[] | v | e] st1];
    simpl in Hsel;
    try (exists []; simpl; rewrite app_nil_r; repeat split; auto; constructor).
  rewrite <- Hsel. apply start_runner_ranked.
Qed.

(** The calls of every run are in the order of the stages of [main]: first
    the calls of the file system, then the calls of the parsers, then, each
    at most once, the message about missing features, the loader, the
    matcher, the clock and the runner.  No path is looked at once a file has
    been parsed, nothing is parsed once the loader has been called, and
    nothing at all is called after the runner. *)
Theorem calls_in_order (env : Env) (arguments : list (string * arg)) :
  StronglySorted follows (trace (main env arguments initial).2).
Proof.
  rewrite main_configured.
  destruct (configured_ranked env {| config := built_config arguments; trace := trace initial |})
    as (evs & Htr & Hsorted & _).
  rewrite Htr. exact Hsorted.
Qed.
